(** * Retry with exponential backoff: an embedding of [src/utils/retry.ts]

    The development follows the TypeScript module function by function.

    - JavaScript values that can be thrown are the inductive type [value];
      [Error] objects are records with a [name] and a [message].  [String(v)]
      is partial: on some objects it throws, and then so does line 40 of
      [retry], inside the [catch] block.
    - The numeric fields of [RetryOptions] are integers ([Z]); on integers
      below 2^53 the arithmetic of the source (IEEE doubles) is exact.
      Fractional, infinite and NaN fields are outside the model.
    - The operation [fn] is an opaque closure.  It is identified with the
      outcomes of its successive invocations: [fn i] is how the [i]-th call
      settles.  The state threaded through [retry] is the number of calls
      made so far; a promise that never settles is outside the model.
    - [onRetry] is a function of its two arguments that either returns
      ([None]) or throws a value ([Some v]); its return value is discarded by
      the source.
    - What [retry] does to the outside world is recorded as a list of
      [event]s, in the order in which they happen. *)

From Stdlib Require Import ZArith List String Ascii Bool Lia.
Import ListNotations.

Local Open Scope Z_scope.

(** ** JavaScript values *)

Record Error : Type := mkError { name : string; message : string }.

(** [new Error(msg)] *)
Definition new_Error (msg : string) : Error := mkError "Error" msg.

(** Values a promise can reject with.  [VOther str] stands for any value that
    is neither a primitive listed here nor an [Error] and that [String(v)]
    converts (a number, a symbol, a plain object ...), given by the string
    the conversion yields.  [VUnprintable thrown] stands for an object that
    [String(v)] cannot convert: one without a usable [toString] or [valueOf]
    (the conversion throws a [TypeError]) or one whose [toString] throws;
    [thrown] is what the conversion throws. *)
Inductive value : Type :=
| VUndefined
| VNull
| VBoolean (b : bool)
| VString (s : string)
| VError (e : Error)
| VOther (str : string)
| VUnprintable (thrown : value).

(** How an evaluation completes: with a result, or by throwing a value. *)
Inductive Completion (A : Type) : Type :=
| Normal (a : A)
| Throw (v : value).
Arguments Normal {A} a.
Arguments Throw {A} v.

(** [v instanceof Error] *)
Definition instanceof_Error (v : value) : bool :=
  match v with
  | VError _ => true
  | _ => false
  end.

(** [String(v)].  On an [Error] this is [Error.prototype.toString]. *)
Definition js_String (v : value) : Completion string :=
  match v with
  | VUndefined => Normal "undefined"
  | VNull => Normal "null"
  | VBoolean true => Normal "true"
  | VBoolean false => Normal "false"
  | VString s => Normal s
  | VError e =>
      Normal match name e, message e with
             | EmptyString, m => m
             | n, EmptyString => n
             | n, m => n ++ ": " ++ m
             end
  | VOther str => Normal str
  | VUnprintable thrown => Throw thrown
  end%string.

(** [error instanceof Error ? error : new Error(String(error))] (line 40).
    The conversion to a string can throw. *)
Definition to_Error (error : value) : Completion Error :=
  match error with
  | VError e => Normal e
  | _ =>
      match js_String error with
      | Normal s => Normal (new_Error s)
      | Throw thrown => Throw thrown
      end
  end.

(** ** Strings: [toLowerCase] and [includes]

    Strings are sequences of 8-bit characters; [toLowerCase] maps the
    letters A-Z and leaves every other character as it is. *)

Definition lower_ascii (c : ascii) : ascii :=
  let n := nat_of_ascii c in
  if ((65 <=? n) && (n <=? 90))%nat then ascii_of_nat (n + 32) else c.

Fixpoint toLowerCase (s : string) : string :=
  match s with
  | EmptyString => EmptyString
  | String c s' => String (lower_ascii c) (toLowerCase s')
  end.

(** [s.includes(sub)]: [sub] starts at some position of [s]. *)
Fixpoint includes (s sub : string) : bool :=
  String.prefix sub s ||
  match s with
  | EmptyString => false
  | String _ s' => includes s' sub
  end.

(** The declarative reading of "[s] contains [sub]". *)
Definition contains (s sub : string) : Prop :=
  exists pre post : string, s = (pre ++ sub ++ post)%string.

(** ** [isRetryableError] (lines 70-84) *)

Definition retryableCodes : list string :=
  ["ECONNRESET"; "ETIMEDOUT"; "ENOTFOUND"]%string.

Definition isRetryableError (error : value) : bool :=
  if negb (instanceof_Error error) then false
  else
    match error with
    | VError e =>
        let message := toLowerCase (message e) in
        existsb (fun code => includes message (toLowerCase code)) retryableCodes
        || includes message "rate limit"
        || includes message "timeout"
        || includes message "network"
    | _ => false
    end.

(** ** Options (lines 5-18) *)

(** [onRetry?: (error: Error, attempt: number) => void].  [None] is a normal
    return, [Some v] is [throw v]. *)
Definition Callback : Type := Error -> Z -> option value.

Record RetryOptions : Type := mkOptions {
  maxAttempts : Z;
  delayMs : Z;
  backoffMultiplier : Z;
  maxDelayMs : Z;
  onRetry : option Callback
}.

(** [Partial<RetryOptions>]: every field may be left out. *)
Record PartialRetryOptions : Type := mkPartial {
  given_maxAttempts : option Z;
  given_delayMs : option Z;
  given_backoffMultiplier : option Z;
  given_maxDelayMs : option Z;
  given_onRetry : option Callback
}.

Definition DEFAULT_OPTIONS : RetryOptions :=
  {| maxAttempts := 3;
     delayMs := 1000;
     backoffMultiplier := 2;
     maxDelayMs := 30000;
     onRetry := None |}.

(** The call [retry(fn)], whose [options] is the default [{}]. *)
Definition no_options : PartialRetryOptions :=
  mkPartial None None None None None.

Definition override {A : Type} (given : option A) (default : A) : A :=
  match given with
  | Some v => v
  | None => default
  end.

(** [{ ...base, ...options }] (line 32) *)
Definition spread (base : RetryOptions) (options : PartialRetryOptions)
  : RetryOptions :=
  {| maxAttempts := override (given_maxAttempts options) (maxAttempts base);
     delayMs := override (given_delayMs options) (delayMs base);
     backoffMultiplier :=
       override (given_backoffMultiplier options) (backoffMultiplier base);
     maxDelayMs := override (given_maxDelayMs options) (maxDelayMs base);
     onRetry :=
       match given_onRetry options with
       | Some cb => Some cb
       | None => onRetry base
       end |}.

(** ** Effects *)

(** How one awaited call of [fn] settles.  A synchronous [throw] inside [fn]
    is caught by the same [try] and counts as [Rejected]. *)
Inductive Settled (T : Type) : Type :=
| Fulfilled (v : T)
| Rejected (reason : value).
Arguments Fulfilled {T} v.
Arguments Rejected {T} reason.

Inductive event : Type :=
| Invoked (i : nat)                    (* the [i]-th call of [fn] *)
| Notified (e : Error) (attempt : Z)   (* [onRetry(e, attempt)] *)
| Slept (ms : Z).                      (* [await sleep(ms)] *)

(** A computation takes the number of calls of [fn] made so far and gives
    its completion, the new number of calls and the events it produced. *)
Definition M (A : Type) : Type := nat -> Completion A * nat * list event.

Definition ret {A : Type} (a : A) : M A := fun n => (Normal a, n, []).

Definition throw {A : Type} (v : value) : M A := fun n => (Throw v, n, []).

(** An evaluation that neither calls [fn] nor produces an event. *)
Definition eval {A : Type} (c : Completion A) : M A := fun n => (c, n, []).

Definition bind {A B : Type} (m : M A) (k : A -> M B) : M B :=
  fun n =>
    match m n with
    | (Normal a, n1, t1) => let '(r, n2, t2) := k a n1 in (r, n2, t1 ++ t2)
    | (Throw v, n1, t1) => (Throw v, n1, t1)
    end.

(** [try { body } catch (error) { handler }] *)
Definition try_catch {A : Type} (body : M A) (handler : value -> M A) : M A :=
  fun n =>
    match body n with
    | (Normal a, n1, t1) => (Normal a, n1, t1)
    | (Throw v, n1, t1) => let '(r, n2, t2) := handler v n1 in (r, n2, t1 ++ t2)
    end.

Declare Scope js_scope.
Delimit Scope js_scope with js.
Notation "m1 ;; m2" := (bind m1 (fun _ => m2))
  (at level 61, right associativity) : js_scope.
Notation "x <- m1 ;; m2" := (bind m1 (fun x => m2))
  (at level 61, m1 at next level, right associativity) : js_scope.

(** [opts.onRetry?.(e, attempt)] *)
Definition call_onRetry (cb : option Callback) (e : Error) (attempt : Z)
  : M unit :=
  match cb with
  | None => ret tt
  | Some f =>
      fun n =>
        (match f e attempt with
         | None => Normal tt
         | Some thrown => Throw thrown
         end, n, [Notified e attempt])
  end.

(** [await sleep(ms)] (lines 63-65) *)
Definition sleep (ms : Z) : M unit := fun n => (Normal tt, n, [Slept ms]).

(** [Math.min(opts.delayMs * Math.pow(opts.backoffMultiplier, attempt - 1),
    opts.maxDelayMs)] (lines 48-51) *)
Definition backoff (opts : RetryOptions) (attempt : Z) : Z :=
  Z.min (delayMs opts * backoffMultiplier opts ^ (attempt - 1))
        (maxDelayMs opts).

(** The values [attempt] takes in
    [for (let attempt = 1; attempt <= maxAttempts; attempt++)]. *)
Definition attempts_upto (max : Z) : list Z :=
  map Z.of_nat (seq 1 (Z.to_nat max)).

(** The same loop header read step by step: test [attempt <= max], run the
    body, [attempt++].  [fuel] bounds the number of tests. *)
Fixpoint loop_header (fuel : nat) (attempt max : Z) : list Z :=
  match fuel with
  | O => []
  | S fuel' =>
      if attempt <=? max
      then attempt :: loop_header fuel' (attempt + 1) max
      else []
  end.

Section Retry.

Context {T : Type}.

(** [fn i] is how the [i]-th call of the operation settles. *)
Variable fn : nat -> Settled T.

(** [await fn()] *)
Definition await_fn : M T :=
  fun n =>
    (match fn (S n) with
     | Fulfilled v => Normal v
     | Rejected reason => Throw reason
     end, S n, [Invoked (S n)]).

(** The [for] loop of lines 36-55 followed by line 57.  The [try] branch
    returns from [retry]; the [catch] branch either throws (from line 40,
    43 or 46) or falls through to the next iteration. *)
Fixpoint attempts_loop (opts : RetryOptions) (attempts : list Z)
    (lastError : Error) : M T :=
  match attempts with
  | [] => throw (VError lastError)
  | attempt :: rest =>
      try_catch await_fn (fun error =>
        (lastError <- eval (to_Error error) ;;
         if attempt =? maxAttempts opts then throw (VError lastError)
         else
           call_onRetry (onRetry opts) lastError attempt ;;
           let delay := backoff opts attempt in
           sleep delay ;;
           attempts_loop opts rest lastError)%js)
  end.

(** [retry] once [opts] is known (lines 34-57). *)
Definition retry_with (opts : RetryOptions) : M T :=
  attempts_loop opts (attempts_upto (maxAttempts opts))
                (new_Error "No attempts made").

(** [retry(fn, options)] (lines 28-58) *)
Definition retry (options : PartialRetryOptions) : M T :=
  retry_with (spread DEFAULT_OPTIONS options).

End Retry.

(** Running a computation from a state in which [fn] has not been called. *)
Definition outcome {A : Type} (m : M A) : Completion A := fst (fst (m 0%nat)).
Definition calls {A : Type} (m : M A) : nat := snd (fst (m 0%nat)).
Definition trace {A : Type} (m : M A) : list event := snd (m 0%nat).

(** The options [retry] works with once the defaults are filled in. *)
Definition effective (options : PartialRetryOptions) : RetryOptions :=
  spread DEFAULT_OPTIONS options.

(** ** Vocabulary for describing runs *)

(** The value a call rejected with ([undefined] stands in when it did not). *)
Definition reason {T : Type} (s : Settled T) : value :=
  match s with
  | Rejected x => x
  | Fulfilled _ => VUndefined
  end.

Definition is_Invoked (ev : event) : bool :=
  match ev with
  | Invoked _ => true
  | _ => false
  end.

Definition is_Notified (ev : event) : bool :=
  match ev with
  | Notified _ _ => true
  | _ => false
  end.

Definition is_Slept (ev : event) : bool :=
  match ev with
  | Slept _ => true
  | _ => false
  end.

Section Rounds.

Context {T : Type}.
Variable fn : nat -> Settled T.
Variable opts : RetryOptions.

(** The failure captured at attempt [i]: the value of [lastError] after
    line 40.  When line 40 throws, nothing is captured; [new Error("")]
    stands in. *)
Definition captured (i : nat) : Error :=
  match to_Error (reason (fn i)) with
  | Normal e => e
  | Throw _ => new_Error EmptyString
  end.

(** The [i]-th call failed and line 40 captured its failure. *)
Definition failed_at (i : nat) : Prop :=
  exists x, fn i = Rejected x /\ to_Error x = Normal (captured i).

Definition notification (e : Error) (attempt : Z) : list event :=
  match onRetry opts with
  | Some _ => [Notified e attempt]
  | None => []
  end.

(** What a failed attempt that is followed by another one leaves in the
    trace. *)
Definition round (i : nat) : list event :=
  Invoked i :: notification (captured i) (Z.of_nat i)
    ++ [Slept (backoff opts (Z.of_nat i))].

(** [onRetry], when there is one, returns normally at attempt [i]. *)
Definition quiet_at (i : nat) : Prop :=
  forall cb, onRetry opts = Some cb -> cb (captured i) (Z.of_nat i) = None.

(** The four ways the last attempt [m] of a run can end it: line 38
    returns, line 40 throws, line 43 throws, line 46 throws. *)
Inductive ending (m : nat) : Completion T -> list event -> Prop :=
| ended_fulfilled v :
    fn m = Fulfilled v ->
    ending m (Normal v) [Invoked m]
| ended_by_conversion x thrown :
    fn m = Rejected x ->
    to_Error x = Throw thrown ->
    ending m (Throw thrown) [Invoked m]
| ended_exhausted x e :
    fn m = Rejected x ->
    to_Error x = Normal e ->
    Z.of_nat m = maxAttempts opts ->
    ending m (Throw (VError e)) [Invoked m]
| ended_by_callback x e cb thrown :
    fn m = Rejected x ->
    to_Error x = Normal e ->
    Z.of_nat m <> maxAttempts opts ->
    onRetry opts = Some cb ->
    cb e (Z.of_nat m) = Some thrown ->
    ending m (Throw thrown) [Invoked m; Notified e (Z.of_nat m)].

End Rounds.

(** [onRetry], when there is one, never throws. *)
Definition never_throws (opts : RetryOptions) : Prop :=
  forall cb, onRetry opts = Some cb -> forall e a, cb e a = None.

(** Line 40 can capture [x]: [x] is an [Error], or [String(x)] does not
    throw. *)
Definition convertible (x : value) : Prop :=
  exists e, to_Error x = Normal e.

(** [e] is the failure [x] as the specification wants it normalized: [x]
    itself when it is an [Error], otherwise a new [Error] whose message is the
    string form of [x]. *)
Definition normalizes (x : value) (e : Error) : Prop :=
  x = VError e
  \/ (instanceof_Error x = false
      /\ exists s, js_String x = Normal s /\ e = new_Error s).

(** ** The delay formula of the specification *)

(** The wait before attempt [i], for [i > 1]:
    min(initialDelay * multiplier^(i-2), maxDelay). *)
Definition delay_before (opts : RetryOptions) (i : Z) : Z :=
  Z.min (delayMs opts * backoffMultiplier opts ^ (i - 2)) (maxDelayMs opts).

(** The calls of the operation in a run, in order. *)
Definition invocations (t : list event) : list event :=
  filter is_Invoked t.

(** The waits of a run, in order. *)
Definition delays (t : list event) : list event :=
  filter is_Slept t.

(** ** How the specification describes runs *)

Section Descriptions.

Context {T : Type}.
Variable fn : nat -> Settled T.
Variable options : PartialRetryOptions.

(** The operation fails on every invocation. *)
Definition always_fails : Prop :=
  forall i : nat, exists x, fn i = Rejected x.

(** The operation first succeeds on attempt [k], with value [v]. *)
Definition first_succeeds_at (k : nat) (v : T) : Prop :=
  (forall i, (1 <= i < k)%nat -> exists x, fn i = Rejected x)
  /\ fn k = Fulfilled v.

(** Every failure of the operation is an [Error] or has a string form. *)
Definition fails_convertibly : Prop :=
  forall i x, fn i = Rejected x -> convertible x.

(** [retry] calls the operation exactly [N] times and rejects with the
    failure captured at the [N]-th attempt. *)
Definition exhausts (N : nat) : Prop :=
  calls (retry fn options) = N
  /\ invocations (trace (retry fn options)) = map Invoked (seq 1 N)
  /\ exists x e, fn N = Rejected x
         /\ normalizes x e
         /\ outcome (retry fn options) = Throw (VError e).

(** [retry] calls the operation exactly [k] times and returns [v]; the
    [k]-th call is the last thing it does. *)
Definition returns_at (k : nat) (v : T) : Prop :=
  calls (retry fn options) = k
  /\ invocations (trace (retry fn options)) = map Invoked (seq 1 k)
  /\ outcome (retry fn options) = Normal v
  /\ exists pre, trace (retry fn options) = pre ++ [Invoked k].

(** The [onRetry] calls of a run, in order. *)
Definition notifications (t : list event) : list event :=
  filter is_Notified t.

(** [onRetry] is called [m - 1] times when [m] attempts are made: once after
    each failed attempt but the last, with that attempt's failure and its
    number. *)
Definition notified_between_attempts : Prop :=
  let m := calls (retry fn options) in
  let t := trace (retry fn options) in
  Z.of_nat (List.length (notifications t)) = Z.of_nat m - 1
  /\ notifications t
     = map (fun i => Notified (captured fn i) (Z.of_nat i)) (seq 1 (m - 1))
  /\ forall i, (1 <= i < m)%nat ->
       (exists x, fn i = Rejected x /\ normalizes x (captured fn i))
       /\ exists pre post,
            t = pre ++ Invoked i
                  :: Notified (captured fn i) (Z.of_nat i) :: post.

(** [v] is what some [onRetry] call of the run threw. *)
Definition thrown_by_onRetry (v : value) : Prop :=
  exists cb e a,
    onRetry (effective options) = Some cb
    /\ In (Notified e a) (trace (retry fn options))
    /\ cb e a = Some v.

(** [v] is what line 40 threw when it converted the failure of the last
    call to a string. *)
Definition thrown_by_conversion (v : value) : Prop :=
  exists x,
    fn (calls (retry fn options)) = Rejected x /\ to_Error x = Throw v.

(** Whatever [retry] rejects with is the normalized failure of some call of
    the operation. *)
Definition rejects_with_operation_failure : Prop :=
  forall v, outcome (retry fn options) = Throw v ->
    exists i x e, fn i = Rejected x /\ normalizes x e /\ v = VError e.

(** [retry] rejects with the normalized failure of the last call it made. *)
Definition rejects_with_last_failure (v : value) : Prop :=
  exists x e,
    fn (calls (retry fn options)) = Rejected x
    /\ normalizes x e /\ v = VError e.

(** A throwing [onRetry] does not end the run: the next attempt is made,
    and the run can only reject with a failure of the operation. *)
Definition survives_callback_failure : Prop :=
  forall cb e a thrown,
    onRetry (effective options) = Some cb ->
    In (Notified e a) (trace (retry fn options)) ->
    cb e a = Some thrown ->
    In (Invoked (S (Z.to_nat a))) (trace (retry fn options))
    /\ rejects_with_operation_failure.

(** Whatever [retry] rejects with is an [Error]. *)
Definition rejects_with_Error : Prop :=
  forall v, outcome (retry fn options) = Throw v -> exists e, v = VError e.

End Descriptions.

(** ** Sample operations and callbacks *)

Definition permanent_failure (i : nat) : Settled string :=
  Rejected (VError (new_Error "permanent failure")).

Definition fail_then_succeed (i : nat) : Settled string :=
  match i with
  | 1%nat => Rejected (VError (new_Error "fail"))
  | _ => Fulfilled "success"%string
  end.

(** What [String(Object.create(null))] throws. *)
Definition cannot_convert : value :=
  VError (mkError "TypeError" "Cannot convert object to primitive value").

(** An operation that always rejects with [Object.create(null)]. *)
Definition opaque_failure (i : nat) : Settled string :=
  Rejected (VUnprintable cannot_convert).

(** An operation that rejects with a plain string, then succeeds. *)
Definition string_then_succeed (i : nat) : Settled string :=
  match i with
  | 1%nat => Rejected (VString "string error")
  | _ => Fulfilled "success"%string
  end.

Definition silent_onRetry : Callback := fun _ _ => None.

Definition throwing_onRetry : Callback :=
  fun _ _ => Some (VString "onRetry failed").

(** [{ maxAttempts: 1 }] *)
Definition one_attempt : PartialRetryOptions :=
  mkPartial (Some 1) None None None None.

(** [{ maxAttempts: 2, delayMs: 10, onRetry }] *)
Definition two_attempts (cb : Callback) : PartialRetryOptions :=
  mkPartial (Some 2) (Some 10) None None (Some cb).

Definition invalid_input (i : nat) : Settled bool :=
  Rejected (VString "Invalid input").

(** [{ maxAttempts: 3, delayMs: 100, backoffMultiplier: 2 }] *)
Definition backoff_sample : PartialRetryOptions :=
  mkPartial (Some 3) (Some 100) (Some 2) None None.

(** ** Further vocabulary *)

(** The durations of the waits of a run, in order, and their sum. *)
Definition waits (t : list event) : list Z :=
  flat_map (fun ev => match ev with Slept ms => [ms] | _ => [] end) t.

Definition total_wait (t : list event) : Z :=
  fold_right Z.add 0 (waits t).

(** Every wait in [t] is directly followed by a call of the operation. *)
Fixpoint waits_lead_to_calls (t : list event) : Prop :=
  match t with
  | [] => True
  | Slept _ :: t' =>
      match t' with
      | Invoked _ :: _ => waits_lead_to_calls t'
      | _ => False
      end
  | _ :: t' => waits_lead_to_calls t'
  end.

Definition is_Fulfilled {T : Type} (s : Settled T) : bool :=
  match s with
  | Fulfilled _ => true
  | Rejected _ => false
  end.

(** The same options with the [onRetry] field left out. *)
Definition without_onRetry (options : PartialRetryOptions)
  : PartialRetryOptions :=
  mkPartial (given_maxAttempts options) (given_delayMs options)
            (given_backoffMultiplier options) (given_maxDelayMs options) None.

(** [s.toUpperCase()] on 8-bit characters, the counterpart of [toLowerCase];
    it serves to state that letter case does not matter. *)
Definition upper_ascii (c : ascii) : ascii :=
  let n := nat_of_ascii c in
  if ((97 <=? n) && (n <=? 122))%nat then ascii_of_nat (n - 32) else c.

Fixpoint toUpperCase (s : string) : string :=
  match s with
  | EmptyString => EmptyString
  | String c s' => String (upper_ascii c) (toUpperCase s')
  end.

(** The substrings [isRetryableError] looks for in the lowercased message. *)
Definition retryable_tokens : list string :=
  ["econnreset"; "etimedout"; "enotfound"; "rate limit"; "timeout";
   "network"]%string.

(** * Proofs *)

(** ** One iteration of the loop *)

Section Iteration.

Context {T : Type}.
Variable fn : nat -> Settled T.
Variable opts : RetryOptions.

Lemma loop_done (e0 : Error) (n : nat) :
  attempts_loop fn opts [] e0 n = (Throw (VError e0), n, []).
Proof. reflexivity. Qed.

Lemma loop_fulfilled (a : Z) (rest : list Z) (e0 : Error) (n : nat) (v : T) :
  fn (S n) = Fulfilled v ->
  attempts_loop fn opts (a :: rest) e0 n = (Normal v, S n, [Invoked (S n)]).
Proof.
  intros Hfn. cbn [attempts_loop]. unfold try_catch, await_fn.
  now rewrite Hfn.
Qed.

Lemma loop_conversion_throws (a : Z) (rest : list Z) (e0 : Error) (n : nat)
    (x thrown : value) :
  fn (S n) = Rejected x ->
  to_Error x = Throw thrown ->
  attempts_loop fn opts (a :: rest) e0 n
  = (Throw thrown, S n, [Invoked (S n)]).
Proof.
  intros Hfn Hconv. cbn [attempts_loop].
  unfold try_catch, await_fn, bind, eval.
  now rewrite Hfn, Hconv.
Qed.

Lemma loop_exhausted (rest : list Z) (e0 : Error) (n : nat) (x : value)
    (e : Error) :
  fn (S n) = Rejected x ->
  to_Error x = Normal e ->
  attempts_loop fn opts (maxAttempts opts :: rest) e0 n
  = (Throw (VError e), S n, [Invoked (S n)]).
Proof.
  intros Hfn Hconv. cbn [attempts_loop].
  unfold try_catch, await_fn, bind, eval.
  rewrite Hfn, Hconv, Z.eqb_refl. reflexivity.
Qed.

Lemma loop_callback_throws (a : Z) (rest : list Z) (e0 : Error) (n : nat)
    (x : value) (e : Error) (cb : Callback) (thrown : value) :
  fn (S n) = Rejected x ->
  to_Error x = Normal e ->
  a <> maxAttempts opts ->
  onRetry opts = Some cb ->
  cb e a = Some thrown ->
  attempts_loop fn opts (a :: rest) e0 n
  = (Throw thrown, S n, [Invoked (S n); Notified e a]).
Proof.
  intros Hfn Hconv Ha Hcb Hthrow. cbn [attempts_loop].
  unfold try_catch, await_fn, bind at 1, eval. rewrite Hfn, Hconv.
  apply Z.eqb_neq in Ha. rewrite Ha.
  unfold bind, call_onRetry. rewrite Hcb, Hthrow. reflexivity.
Qed.

Lemma loop_continues (a : Z) (rest : list Z) (e0 : Error) (n : nat)
    (x : value) (e : Error) :
  fn (S n) = Rejected x ->
  to_Error x = Normal e ->
  a <> maxAttempts opts ->
  (forall cb, onRetry opts = Some cb -> cb e a = None) ->
  attempts_loop fn opts (a :: rest) e0 n
  = let '(r, m, t) := attempts_loop fn opts rest e (S n) in
    (r, m, Invoked (S n) :: notification opts e a
             ++ Slept (backoff opts a) :: t).
Proof.
  intros Hfn Hconv Ha Hquiet. cbn [attempts_loop].
  unfold try_catch, await_fn, bind at 1, eval. rewrite Hfn, Hconv.
  apply Z.eqb_neq in Ha. rewrite Ha.
  unfold bind, call_onRetry, notification, sleep.
  destruct (onRetry opts) as [cb|] eqn:Hcb.
  - rewrite (Hquiet cb eq_refl).
    destruct (attempts_loop fn opts rest e (S n)) as [[r m] t].
    reflexivity.
  - unfold ret.
    destruct (attempts_loop fn opts rest e (S n)) as [[r m] t].
    reflexivity.
Qed.

End Iteration.

(** ** The shape of a run *)

Lemma loop_header_seq (fuel : nat) :
  forall (n len : nat),
    (len < fuel)%nat ->
    loop_header fuel (Z.of_nat n) (Z.of_nat (n + len) - 1)
    = map Z.of_nat (seq n len).
Proof.
  induction fuel as [|fuel IH]; intros n len Hlen; [lia|].
  cbn [loop_header].
  destruct (Z.leb_spec (Z.of_nat n) (Z.of_nat (n + len) - 1)) as [Hle|Hgt].
  - destruct len as [|len]; [lia|]. cbn [seq map]. f_equal.
    replace (Z.of_nat n + 1) with (Z.of_nat (S n)) by lia.
    replace (n + S len)%nat with (S n + len)%nat by lia.
    apply IH. lia.
  - now replace len with 0%nat by lia.
Qed.

(** With enough fuel the loop header enumerates [attempts_upto max]; more
    fuel changes nothing. *)
Lemma loop_header_attempts_upto (max : Z) (fuel : nat) :
  (Z.to_nat max < fuel)%nat ->
  loop_header fuel 1 max = attempts_upto max.
Proof.
  intros Hfuel. unfold attempts_upto.
  rewrite <- (loop_header_seq fuel 1 (Z.to_nat max) Hfuel).
  destruct (Z_le_gt_dec max 0) as [Hnone|Hsome].
  - destruct fuel as [|fuel]; [lia|]. cbn [loop_header].
    replace (Z.to_nat max) with 0%nat by lia.
    destruct (Z.leb_spec 1 max); [lia|].
    now destruct (Z.leb_spec (Z.of_nat 1) (Z.of_nat (1 + 0) - 1)); [lia|].
  - f_equal. lia.
Qed.

Lemma attempts_upto_In (max a : Z) :
  In a (attempts_upto max) <-> 1 <= a <= max.
Proof.
  unfold attempts_upto. rewrite in_map_iff. split.
  - intros [i [<- Hi]]. apply in_seq in Hi. lia.
  - intros Ha. exists (Z.to_nat a). split; [lia|]. apply in_seq. lia.
Qed.

Section Shape.

Context {T : Type}.
Variable fn : nat -> Settled T.
Variable opts : RetryOptions.

Lemma captured_eq (i : nat) (x : value) (e : Error) :
  fn i = Rejected x -> to_Error x = Normal e -> captured fn i = e.
Proof.
  intros Hfn Hconv. unfold captured. rewrite Hfn. cbn [reason].
  now rewrite Hconv.
Qed.

Lemma failed_at_intro (i : nat) (x : value) (e : Error) :
  fn i = Rejected x -> to_Error x = Normal e -> failed_at fn i.
Proof.
  intros Hfn Hconv. exists x. split; [exact Hfn|].
  now rewrite (captured_eq i x e Hfn Hconv).
Qed.

Lemma round_rejected (i : nat) (x : value) (e : Error) :
  fn i = Rejected x ->
  to_Error x = Normal e ->
  round fn opts i
  = Invoked i :: notification opts e (Z.of_nat i)
      ++ [Slept (backoff opts (Z.of_nat i))].
Proof.
  intros Hfn Hconv. unfold round. now rewrite (captured_eq i x e Hfn Hconv).
Qed.

(** A run of the loop that starts after [n] calls and has [len] attempts
    left is a sequence of rounds followed by an ending. *)
Lemma loop_shape (len : nat) :
  forall (n : nat) (e0 : Error),
    (1 <= len)%nat ->
    maxAttempts opts = Z.of_nat (n + len) ->
    exists (r : Completion T) (m : nat) (last : list event),
      attempts_loop fn opts (map Z.of_nat (seq (S n) len)) e0 n
      = (r, m, flat_map (round fn opts) (seq (S n) (m - S n)) ++ last)
      /\ (n < m <= n + len)%nat
      /\ (forall i, (n < i < m)%nat -> failed_at fn i /\ quiet_at fn opts i)
      /\ ending fn opts m r last.
Proof.
  induction len as [|len IH]; intros n e0 Hlen Hmax; [lia|].
  cbn [seq map].
  destruct (fn (S n)) as [v|x] eqn:Hfn.
  - (* the attempt succeeds *)
    exists (Normal v), (S n), [Invoked (S n)].
    rewrite (loop_fulfilled fn opts _ _ _ _ v Hfn), Nat.sub_diag.
    repeat split; try lia. now constructor.
  - destruct (to_Error x) as [e|thrown] eqn:Hconv.
    2:{ (* line 40 throws *)
        exists (Throw thrown), (S n), [Invoked (S n)].
        rewrite (loop_conversion_throws fn opts _ _ _ _ x thrown Hfn Hconv),
          Nat.sub_diag.
        repeat split; try lia. now apply ended_by_conversion with x. }
    assert (Hround : forall (m : nat) (t : list event),
              (S n < m)%nat ->
              (Invoked (S n) :: notification opts e (Z.of_nat (S n))
                 ++ Slept (backoff opts (Z.of_nat (S n)))
                 :: flat_map (round fn opts) (seq (S (S n)) (m - S (S n))) ++ t)
              = flat_map (round fn opts) (seq (S n) (m - S n)) ++ t).
    { intros m t Hm.
      replace (m - S n)%nat with (S (m - S (S n))) by lia.
      cbn [seq flat_map]. rewrite (round_rejected _ x e Hfn Hconv).
      cbn [app]. now rewrite <- !app_assoc. }
    destruct (Z.eq_dec (Z.of_nat (S n)) (maxAttempts opts)) as [Hlast|Hmore].
    + (* the budget is used up *)
      exists (Throw (VError e)), (S n), [Invoked (S n)].
      rewrite Hlast, (loop_exhausted fn opts _ _ _ x e Hfn Hconv), Nat.sub_diag.
      repeat split; try lia. now apply ended_exhausted with x.
    + assert (Hgo : (forall cb, onRetry opts = Some cb ->
                       cb e (Z.of_nat (S n)) = None) ->
                exists (r : Completion T) (m : nat) (last : list event),
                  attempts_loop fn opts
                    (Z.of_nat (S n) :: map Z.of_nat (seq (S (S n)) len)) e0 n
                  = (r, m, flat_map (round fn opts) (seq (S n) (m - S n))
                             ++ last)
                  /\ (n < m <= n + S len)%nat
                  /\ (forall i, (n < i < m)%nat ->
                        failed_at fn i /\ quiet_at fn opts i)
                  /\ ending fn opts m r last).
      { (* onRetry returns or is absent: sleep and go round again *)
        intros Hquiet.
        destruct (IH (S n) e)
          as (r & m & last & Hrun & Hm & Hbefore & Hend); [lia | lia |].
        exists r, m, last.
        rewrite (loop_continues fn opts _ _ _ _ x e Hfn Hconv Hmore Hquiet).
        rewrite Hrun, Hround by lia.
        repeat split; try lia; try assumption.
        - destruct (Nat.eq_dec i (S n)) as [->|Hi];
            [now apply failed_at_intro with x e|].
          apply Hbefore. lia.
        - destruct (Nat.eq_dec i (S n)) as [->|Hi]; [|apply Hbefore; lia].
          intros cb Hcb. rewrite (captured_eq _ x e Hfn Hconv).
          now apply Hquiet. }
      destruct (onRetry opts) as [cb|] eqn:Hcb.
      * destruct (cb e (Z.of_nat (S n))) as [thrown|] eqn:Hthrow.
        -- (* onRetry throws *)
           exists (Throw thrown), (S n),
             [Invoked (S n); Notified e (Z.of_nat (S n))].
           rewrite (loop_callback_throws fn opts _ _ _ _ x e cb thrown
                      Hfn Hconv Hmore Hcb Hthrow), Nat.sub_diag.
           repeat split; try lia. now apply ended_by_callback with x cb.
        -- apply Hgo. intros cb' Hcb'. now injection Hcb' as <-.
      * apply Hgo. intros cb' Hcb'. discriminate.
Qed.

End Shape.

Section Runs.

Context {T : Type}.
Variable fn : nat -> Settled T.
Variable options : PartialRetryOptions.

(** With no attempt to make, line 57 throws the initial [lastError]. *)
Lemma run_without_attempts :
  maxAttempts (effective options) <= 0 ->
  retry fn options 0%nat
  = (Throw (VError (new_Error "No attempts made")), 0%nat, []).
Proof.
  intros Hmax. unfold retry, retry_with, attempts_upto.
  fold (effective options).
  replace (Z.to_nat (maxAttempts (effective options))) with 0%nat by lia.
  reflexivity.
Qed.

(** With at least one attempt to make, a run is a sequence of rounds
    followed by an ending. *)
Lemma run_shape :
  1 <= maxAttempts (effective options) ->
  exists last : list event,
    trace (retry fn options)
    = flat_map (round fn (effective options))
               (seq 1 (calls (retry fn options) - 1)) ++ last
    /\ (1 <= calls (retry fn options))%nat
    /\ Z.of_nat (calls (retry fn options)) <= maxAttempts (effective options)
    /\ (forall i, (1 <= i < calls (retry fn options))%nat ->
          failed_at fn i /\ quiet_at fn (effective options) i)
    /\ ending fn (effective options) (calls (retry fn options))
              (outcome (retry fn options)) last.
Proof.
  intros Hmax.
  destruct (loop_shape fn (effective options)
              (Z.to_nat (maxAttempts (effective options))) 0
              (new_Error "No attempts made"))
    as (r & m & last & Hrun & Hm & Hbefore & Hend); [lia | lia |].
  assert (Hretry : retry fn options 0%nat
                   = (r, m, flat_map (round fn (effective options))
                                     (seq 1 (m - 1)) ++ last))
    by exact Hrun.
  unfold outcome, calls, trace. rewrite Hretry. cbn [fst snd].
  exists last. repeat split; try lia; try assumption.
  - apply Hbefore. lia.
  - apply Hbefore. lia.
Qed.

End Runs.

(** ** Lists of rounds *)

Lemma flat_map_seq_split {A : Type} (f : nat -> list A) (a len i : nat) :
  (a <= i < a + len)%nat ->
  flat_map f (seq a len)
  = flat_map f (seq a (i - a)) ++ f i ++ flat_map f (seq (S i) (a + len - S i)).
Proof.
  intros Hi.
  replace len with ((i - a) + S (a + len - S i))%nat at 1 by lia.
  rewrite seq_app, flat_map_app.
  replace (a + (i - a))%nat with i by lia.
  reflexivity.
Qed.

Lemma ending_starts_with_call {T : Type} (fn : nat -> Settled T)
    (opts : RetryOptions) (m : nat) (r : Completion T) (last : list event) :
  ending fn opts m r last -> exists tl, last = Invoked m :: tl.
Proof.
  intros [v Hv | x thrown Hx Hconv | x e Hx Hconv Hlast
         | x e cb thrown Hx Hconv Hmore Hcb Hthrow]; eauto.
Qed.

Lemma ending_quiet {T : Type} (fn : nat -> Settled T)
    (opts : RetryOptions) (m : nat) (r : Completion T) (last : list event) :
  never_throws opts -> ending fn opts m r last -> last = [Invoked m].
Proof.
  intros Hquiet [v Hv | x thrown Hx Hconv | x e Hx Hconv Hlast
                | x e cb thrown Hx Hconv Hmore Hcb Hthrow];
    try reflexivity.
  rewrite (Hquiet cb Hcb) in Hthrow. discriminate.
Qed.

(** What line 40 captures is the failure normalized as the specification
    describes it. *)
Lemma to_Error_normalizes (x : value) (e : Error) :
  to_Error x = Normal e <-> normalizes x e.
Proof.
  unfold normalizes. split.
  - intros Hconv. destruct x as [| | [] | s | e' | str | thrown];
      cbn in Hconv; try discriminate; injection Hconv as <-;
      (now left) || (right; split; [reflexivity|]; eexists; now split).
  - intros [-> | (Hinst & s & Hs & ->)]; [reflexivity|].
    destruct x as [| | [] | s' | e' | str | thrown];
      cbn in *; try discriminate; now injection Hs as ->.
Qed.

(** ** Counting calls *)

Lemma invocations_app (t1 t2 : list event) :
  invocations (t1 ++ t2) = invocations t1 ++ invocations t2.
Proof. apply filter_app. Qed.

Lemma invocations_rounds {T : Type} (fn : nat -> Settled T)
    (opts : RetryOptions) (l : list nat) :
  invocations (flat_map (round fn opts) l) = map Invoked l.
Proof.
  induction l as [|i l IH]; [reflexivity|].
  cbn [flat_map map]. rewrite invocations_app, IH.
  unfold round, notification. now destruct (onRetry opts).
Qed.

Lemma seq_upto_last (m : nat) :
  (1 <= m)%nat -> seq 1 m = seq 1 (m - 1) ++ [m].
Proof.
  intros Hm. destruct m as [|m]; [lia|].
  rewrite seq_S. now replace (S m - 1)%nat with m by lia.
Qed.

(** The calls recorded in the trace are the calls counted by the state: the
    first, the second, ... up to the last. *)
Lemma invocations_of_run {T : Type} (fn : nat -> Settled T)
    (options : PartialRetryOptions) :
  invocations (trace (retry fn options))
  = map Invoked (seq 1 (calls (retry fn options))).
Proof.
  destruct (Z_le_gt_dec (maxAttempts (effective options)) 0) as [Hnone|Hsome].
  - pose proof (run_without_attempts fn options Hnone) as Hrun.
    unfold trace, calls. now rewrite Hrun.
  - destruct (run_shape fn options) as (last & Htrace & Hm1 & _ & _ & Hend);
      [lia|].
    rewrite Htrace, invocations_app, invocations_rounds.
    rewrite (seq_upto_last (calls (retry fn options)) Hm1), map_app.
    f_equal. now destruct Hend.
Qed.

(** ** Exhausting the budget *)

(** C1 (amended): for every policy with maxAttempts = N >= 1 whose onRetry
    callback, if any, never throws, and every operation that fails on every
    invocation with an Error or with a value that can be converted to a
    string, retry invokes the operation exactly N times and rejects with the
    normalized failure of the N-th attempt. *)
Theorem retry_exhausts_budget {T : Type} (fn : nat -> Settled T)
    (options : PartialRetryOptions) (N : Z) :
  maxAttempts (effective options) = N ->
  1 <= N ->
  always_fails fn ->
  fails_convertibly fn ->
  never_throws (effective options) ->
  exhausts fn options (Z.to_nat N).
Proof.
  intros HN Hpos Hfails Hconvertible Hquiet.
  destruct (run_shape fn options)
    as (last & Htrace & Hm1 & HmN & Hbefore & Hend);
    [cbv zeta; lia|].
  cbv zeta in *. unfold exhausts.
  destruct Hend as [v Hv | x thrown Hx Hconv | x e Hx Hconv Hlast
                   | x e cb thrown Hx Hconv Hmore Hcb Hthrow].
  - destruct (Hfails (calls (retry fn options))) as [x Hx]. congruence.
  - destruct (Hconvertible _ x Hx) as [e He]. congruence.
  - assert (Hcalls : calls (retry fn options) = Z.to_nat N) by lia.
    split; [exact Hcalls|]. split.
    + rewrite <- Hcalls. apply invocations_of_run.
    + exists x, e. rewrite <- Hcalls.
      repeat split; [exact Hx | now apply to_Error_normalizes].
  - rewrite (Hquiet cb Hcb) in Hthrow. discriminate.
Qed.

Lemma retry_exhausts_budget_example :
  exhausts permanent_failure (two_attempts silent_onRetry) 2.
Proof.
  apply (retry_exhausts_budget permanent_failure
           (two_attempts silent_onRetry) 2).
  - reflexivity.
  - lia.
  - intros i. exists (VError (new_Error "permanent failure")). reflexivity.
  - intros i x Hx. injection Hx as <-. eexists. reflexivity.
  - intros cb Hcb e a. injection Hcb as <-. reflexivity.
Defined.

(** C1 as stated fails: a policy whose onRetry throws ends the run after the
    first of its two attempts, with the callback's failure. *)
Lemma throwing_callback_cuts_budget :
  maxAttempts (effective (two_attempts throwing_onRetry)) = 2
  /\ always_fails permanent_failure
  /\ ~ exhausts permanent_failure (two_attempts throwing_onRetry) 2.
Proof.
  split; [reflexivity|]. split.
  - intros i. eexists. reflexivity.
  - intros [Hcalls _]. vm_compute in Hcalls. discriminate.
Qed.

(** The same happens, with a callback that never throws, when the operation
    fails with a value that line 40 cannot convert to a string: one call of
    three is made. *)
Lemma unconvertible_failure_cuts_budget :
  maxAttempts (effective backoff_sample) = 3
  /\ always_fails opaque_failure
  /\ never_throws (effective backoff_sample)
  /\ retry opaque_failure backoff_sample 0%nat
     = (Throw cannot_convert, 1%nat, [Invoked 1]).
Proof.
  split; [reflexivity|]. split; [|split; [|reflexivity]].
  - intros i. eexists. reflexivity.
  - intros cb Hcb. discriminate.
Qed.

(** ** Stopping at the first success *)

(** C2 (amended): for every policy with maxAttempts = N whose onRetry
    callback, if any, never throws, and every operation that first succeeds on
    attempt k (1 <= k <= N) and whose failures are Errors or values that can
    be converted to a string, retry invokes the operation exactly k times,
    returns the value of attempt k, and that call is the last event of the
    run: no delay follows it. *)
Theorem retry_returns_first_success {T : Type} (fn : nat -> Settled T)
    (options : PartialRetryOptions) (N : Z) (k : nat) (v : T) :
  maxAttempts (effective options) = N ->
  (1 <= k)%nat ->
  Z.of_nat k <= N ->
  first_succeeds_at fn k v ->
  fails_convertibly fn ->
  never_throws (effective options) ->
  returns_at fn options k v.
Proof.
  intros HN Hk1 HkN [Hfail Hok] Hconvertible Hquiet.
  destruct (run_shape fn options)
    as (last & Htrace & Hm1 & HmN & Hbefore & Hend);
    [cbv zeta; lia|].
  cbv zeta in *.
  pose proof (ending_quiet _ _ _ _ _ Hquiet Hend) as Hlast.
  set (m := calls (retry fn options)) in *.
  destruct (Nat.lt_trichotomy m k) as [Hlt | [Heq | Hgt]].
  - (* the run cannot stop before attempt k *)
    exfalso. destruct (Hfail m) as [x Hx]; [lia|].
    destruct Hend as [v' Hv' | x' thrown Hx' Hconv | x' e Hx' Hconv Hm
                     | x' e cb thrown Hx' Hconv Hm Hcb Hthrow].
    + congruence.
    + destruct (Hconvertible _ x' Hx') as [e He]. congruence.
    + lia.
    + rewrite (Hquiet cb Hcb) in Hthrow. discriminate.
  - unfold returns_at. fold m. rewrite Heq in *.
    destruct Hend as [v' Hv' | x' thrown Hx' Hconv | x' e Hx' Hconv Hm
                     | x' e cb thrown Hx' Hconv Hm Hcb Hthrow];
      try congruence.
    replace v' with v by congruence.
    repeat split.
    + rewrite invocations_of_run. fold m. now rewrite Heq.
    + eexists. exact Htrace.
  - (* nor go beyond it *)
    exfalso. destruct (Hbefore k) as [[x [Hx _]] _]; [lia|]. congruence.
Qed.

Lemma retry_returns_first_success_example :
  returns_at fail_then_succeed (two_attempts silent_onRetry) 2 "success"%string.
Proof.
  apply (retry_returns_first_success fail_then_succeed
           (two_attempts silent_onRetry) 2 2 "success"%string).
  - reflexivity.
  - lia.
  - lia.
  - split; [|reflexivity].
    intros i Hi. assert (i = 1%nat) as -> by lia. eexists. reflexivity.
  - intros i x Hx. destruct i as [|[|i]]; try discriminate.
    injection Hx as <-. eexists. reflexivity.
  - intros cb Hcb e a. injection Hcb as <-. reflexivity.
Defined.

(** C2 as stated fails: the operation would succeed on attempt 2 of 2, but
    onRetry throws after attempt 1 and the second attempt is never made. *)
Lemma throwing_callback_prevents_success :
  maxAttempts (effective (two_attempts throwing_onRetry)) = 2
  /\ first_succeeds_at fail_then_succeed 2 "success"%string
  /\ ~ returns_at fail_then_succeed (two_attempts throwing_onRetry) 2
        "success"%string.
Proof.
  split; [reflexivity|]. split.
  - split; [|reflexivity].
    intros i Hi. assert (i = 1%nat) as -> by lia. eexists. reflexivity.
  - intros [Hcalls _]. vm_compute in Hcalls. discriminate.
Qed.

(** ** The onRetry side channel *)

Lemma notifications_app (t1 t2 : list event) :
  notifications (t1 ++ t2) = notifications t1 ++ notifications t2.
Proof. apply filter_app. Qed.

Lemma notifications_rounds {T : Type} (fn : nat -> Settled T)
    (opts : RetryOptions) (cb : Callback) (l : list nat) :
  onRetry opts = Some cb ->
  notifications (flat_map (round fn opts) l)
  = map (fun i => Notified (captured fn i) (Z.of_nat i)) l.
Proof.
  intros Hcb. induction l as [|i l IH]; [reflexivity|].
  cbn [flat_map map]. rewrite notifications_app, IH.
  unfold round, notification. rewrite Hcb. reflexivity.
Qed.

(** C3 (amended): for every execution of retry with maxAttempts >= 1 and an
    onRetry callback that never throws, if m attempts are made in total then
    onRetry is invoked exactly m - 1 times, once right after each failed
    attempt that is not the final one, with the failure of that attempt and
    its 1-based number. *)
Theorem onRetry_once_per_retry {T : Type} (fn : nat -> Settled T)
    (options : PartialRetryOptions) (cb : Callback) :
  1 <= maxAttempts (effective options) ->
  onRetry (effective options) = Some cb ->
  never_throws (effective options) ->
  notified_between_attempts fn options.
Proof.
  intros Hmax Hcb Hquiet.
  destruct (run_shape fn options Hmax)
    as (last & Htrace & Hm1 & HmN & Hbefore & Hend).
  cbv zeta in *.
  pose proof (ending_quiet _ _ _ _ _ Hquiet Hend) as ->.
  unfold notified_between_attempts. cbv zeta.
  set (m := calls (retry fn options)) in *.
  assert (Hnotes : notifications (trace (retry fn options))
                   = map (fun i => Notified (captured fn i) (Z.of_nat i))
                         (seq 1 (m - 1))).
  { rewrite Htrace, notifications_app, (notifications_rounds _ _ cb _ Hcb).
    cbn. now rewrite app_nil_r. }
  split; [|split].
  - rewrite Hnotes, length_map, length_seq. lia.
  - exact Hnotes.
  - intros i Hi. split.
    { destruct (Hbefore i Hi) as [(x & Hx & Hconv) _].
      exists x. split; [exact Hx | now apply to_Error_normalizes]. }
    rewrite Htrace, (flat_map_seq_split _ 1 (m - 1) i) by lia.
    exists (flat_map (round fn (effective options)) (seq 1 (i - 1))).
    eexists. rewrite <- !app_assoc. f_equal.
    unfold round at 1, notification. rewrite Hcb. cbn [app]. reflexivity.
Qed.

Lemma onRetry_once_per_retry_example :
  notified_between_attempts fail_then_succeed (two_attempts silent_onRetry).
Proof.
  apply (onRetry_once_per_retry fail_then_succeed
           (two_attempts silent_onRetry) silent_onRetry).
  - vm_compute. discriminate.
  - reflexivity.
  - intros cb Hcb e a. injection Hcb as <-. reflexivity.
Defined.

(** C3 as stated fails: when onRetry throws after the first attempt, one
    attempt has been made and onRetry has been invoked once, not zero
    times. *)
Lemma throwing_callback_is_counted :
  ~ notified_between_attempts permanent_failure (two_attempts throwing_onRetry).
Proof.
  intros [Hcount _]. vm_compute in Hcount. discriminate.
Qed.

(** ** Backoff delays *)

Lemma backoff_delay_before (opts : RetryOptions) (i : nat) :
  (1 <= i)%nat ->
  backoff opts (Z.of_nat i) = delay_before opts (Z.of_nat (S i)).
Proof.
  intros Hi. unfold backoff, delay_before.
  replace (Z.of_nat (S i) - 2) with (Z.of_nat i - 1) by lia. reflexivity.
Qed.

Lemma delays_app (t1 t2 : list event) :
  delays (t1 ++ t2) = delays t1 ++ delays t2.
Proof. apply filter_app. Qed.

Lemma delays_rounds {T : Type} (fn : nat -> Settled T) (opts : RetryOptions)
    (l : list nat) :
  delays (flat_map (round fn opts) l)
  = map (fun i => Slept (backoff opts (Z.of_nat i))) l.
Proof.
  induction l as [|i l IH]; [reflexivity|].
  cbn [flat_map map]. rewrite delays_app, IH.
  unfold round, notification. now destruct (onRetry opts).
Qed.

Lemma delays_ending {T : Type} (fn : nat -> Settled T) (opts : RetryOptions)
    (m : nat) (r : Completion T) (last : list event) :
  ending fn opts m r last -> delays last = [].
Proof.
  intros [v Hv | x thrown Hx Hconv | x e Hx Hconv Hlast
         | x e cb thrown Hx Hconv Hmore Hcb Hthrow]; reflexivity.
Qed.

(** C4: in every run, the wait slept right before attempt i > 1 is
    min(initialDelay * backoffMultiplier^(i-2), maxDelay), and these are all
    the waits of the run.  With initialDelay = 100 and multiplier = 2 (and a
    cap of at least 200) the waits before attempts 2 and 3 are 100 and 200;
    with initialDelay = 1000, multiplier = 10 and maxDelay = 50 every wait is
    50. *)
Theorem delay_follows_backoff_formula {T : Type} (fn : nat -> Settled T)
    (options : PartialRetryOptions) :
  let opts := effective options in
  (forall i, (1 < i <= calls (retry fn options))%nat ->
     exists pre post,
       trace (retry fn options)
       = pre ++ Slept (delay_before opts (Z.of_nat i)) :: Invoked i :: post)
  /\ delays (trace (retry fn options))
     = map (fun i => Slept (delay_before opts (Z.of_nat i)))
           (seq 2 (calls (retry fn options) - 1))
  /\ (delayMs opts = 100 -> backoffMultiplier opts = 2 ->
      200 <= maxDelayMs opts ->
      delay_before opts 2 = 100 /\ delay_before opts 3 = 200)
  /\ (delayMs opts = 1000 -> backoffMultiplier opts = 10 ->
      maxDelayMs opts = 50 ->
      forall i, 1 < i -> delay_before opts i = 50).
Proof.
  intros opts.
  assert (Hrun : maxAttempts opts <= 0 \/ 1 <= maxAttempts opts) by lia.
  split; [|split; [|split]].
  - intros i Hi. destruct Hrun as [Hnone|Hsome].
    + pose proof (run_without_attempts fn options Hnone) as Hrun.
      unfold calls in Hi. rewrite Hrun in Hi. cbn in Hi. lia.
    + destruct (run_shape fn options Hsome)
        as (last & Htrace & Hm1 & HmN & Hbefore & Hend).
      cbv zeta in *. fold opts in Htrace, Hend.
      set (m := calls (retry fn options)) in *.
      destruct (ending_starts_with_call _ _ _ _ _ Hend) as [tl ->].
      rewrite Htrace, (flat_map_seq_split _ 1 (m - 1) (i - 1)) by lia.
      replace (S (i - 1)) with i by lia.
      unfold round at 2.
      rewrite (backoff_delay_before opts (i - 1)) by lia.
      replace (S (i - 1)) with i by lia.
      exists (flat_map (round fn opts) (seq 1 (i - 1 - 1))
                ++ Invoked (i - 1)
                   :: notification opts (captured fn (i - 1))
                        (Z.of_nat (i - 1))).
      destruct (Nat.eq_dec i m) as [->|Hne].
      * exists tl.
        replace (1 + (m - 1) - m)%nat with 0%nat by lia.
        cbn [seq flat_map app]. rewrite <- !app_assoc. cbn [app].
        rewrite <- !app_assoc. reflexivity.
      * replace (1 + (m - 1) - i)%nat with (S (m - S i)) by lia.
        cbn [seq flat_map]. unfold round at 2.
        eexists. rewrite <- !app_assoc. cbn [app].
        rewrite <- !app_assoc. cbn [app]. reflexivity.
  - destruct Hrun as [Hnone|Hsome].
    + pose proof (run_without_attempts fn options Hnone) as Hrun.
      unfold calls, trace. rewrite Hrun. reflexivity.
    + destruct (run_shape fn options Hsome)
        as (last & Htrace & Hm1 & HmN & Hbefore & Hend).
      cbv zeta in *. fold opts in Htrace, Hend.
      rewrite Htrace, delays_app, delays_rounds, (delays_ending _ _ _ _ _ Hend).
      rewrite app_nil_r, <- (seq_shift _ 1), map_map.
      apply map_ext_in. intros i Hi. apply in_seq in Hi.
      now rewrite backoff_delay_before by lia.
  - intros Hd Hb Hcap. unfold delay_before. rewrite Hd, Hb.
    change (2 ^ (2 - 2)) with 1. change (2 ^ (3 - 2)) with 2. lia.
  - intros Hd Hb Hcap i Hi. unfold delay_before. rewrite Hd, Hb, Hcap.
    pose proof (Z.pow_pos_nonneg 10 (i - 2)). lia.
Qed.

Lemma delay_follows_backoff_formula_example :
  exists pre post,
    trace (retry permanent_failure backoff_sample)
    = pre ++ Slept 200 :: Invoked 3 :: post.
Proof.
  apply (proj1 (delay_follows_backoff_formula permanent_failure backoff_sample)
           3%nat).
  change (1 < 3 <= 3)%nat. lia.
Defined.

(** ** A throwing onRetry *)

Lemma in_rounds_notified {T : Type} (fn : nat -> Settled T)
    (opts : RetryOptions) (l : list nat) (e : Error) (a : Z) :
  In (Notified e a) (flat_map (round fn opts) l) ->
  exists i, In i l /\ e = captured fn i /\ a = Z.of_nat i.
Proof.
  intros Hin. apply in_flat_map in Hin. destruct Hin as (i & Hi & Hin).
  exists i. split; [exact Hi|].
  unfold round, notification in Hin. cbn [In] in Hin.
  destruct Hin as [Hin|Hin]; [discriminate|].
  apply in_app_or in Hin. destruct Hin as [Hin|[Hin|[]]]; [|discriminate].
  destruct (onRetry opts); [|contradiction].
  destruct Hin as [Hin|[]]. injection Hin as <- <-. now split.
Qed.

(** Where the [onRetry] calls of a run come from: each is told about the
    failure of the attempt whose number it receives; those before the last
    attempt returned normally. *)
Lemma notified_origin {T : Type} (fn : nat -> Settled T)
    (options : PartialRetryOptions) (e : Error) (a : Z) :
  In (Notified e a) (trace (retry fn options)) ->
  exists i x,
    a = Z.of_nat i /\ (1 <= i <= calls (retry fn options))%nat
    /\ fn i = Rejected x /\ to_Error x = Normal e
    /\ ((i < calls (retry fn options))%nat -> quiet_at fn (effective options) i)
    /\ (i = calls (retry fn options) ->
        exists pre, trace (retry fn options) = pre ++ [Notified e a]).
Proof.
  intros Hin.
  destruct (Z_le_gt_dec (maxAttempts (effective options)) 0) as [Hnone|Hsome].
  { pose proof (run_without_attempts fn options Hnone) as Hrun.
    unfold trace in Hin. rewrite Hrun in Hin. contradiction. }
  destruct (run_shape fn options)
    as (last & Htrace & Hm1 & HmN & Hbefore & Hend);
    [cbv zeta; lia|].
  cbv zeta in *. set (m := calls (retry fn options)) in *.
  rewrite Htrace in Hin. apply in_app_or in Hin. destruct Hin as [Hin|Hin].
  - apply in_rounds_notified in Hin. destruct Hin as (i & Hi & -> & ->).
    apply in_seq in Hi.
    destruct (Hbefore i) as [(x & Hx & Hconv) Hquiet]; [lia|].
    exists i, x. repeat split; try lia; try assumption. now intros _.
  - destruct Hend as [v Hv | x thrown Hx Hconv | x e' Hx Hconv Hlast
                     | x e' cb thrown Hx Hconv Hmore Hcb Hthrow].
    + destruct Hin as [Hin|[]]. discriminate.
    + destruct Hin as [Hin|[]]. discriminate.
    + destruct Hin as [Hin|[]]. discriminate.
    + destruct Hin as [Hin|[Hin|[]]]; [discriminate|].
      injection Hin as <- <-. exists m, x.
      repeat split; try lia; try assumption.
      intros _. rewrite Htrace.
      exists (flat_map (round fn (effective options)) (seq 1 (m - 1))
                ++ [Invoked m]).
      now rewrite <- app_assoc.
Qed.

(** C5 (amended): if onRetry throws when invoked, the run ends there: retry
    rejects with the value onRetry threw, that onRetry call is the last event
    of the run, and the attempt it was told about is the last one made. *)
Theorem throwing_onRetry_ends_run {T : Type} (fn : nat -> Settled T)
    (options : PartialRetryOptions) (cb : Callback) (e : Error) (a : Z)
    (thrown : value) :
  onRetry (effective options) = Some cb ->
  In (Notified e a) (trace (retry fn options)) ->
  cb e a = Some thrown ->
  outcome (retry fn options) = Throw thrown
  /\ calls (retry fn options) = Z.to_nat a
  /\ exists pre, trace (retry fn options) = pre ++ [Notified e a].
Proof.
  intros Hcb Hin Hthrow.
  destruct (Z_le_gt_dec (maxAttempts (effective options)) 0) as [Hnone|Hsome].
  { pose proof (run_without_attempts fn options Hnone) as Hrun.
    unfold trace in Hin. rewrite Hrun in Hin. contradiction. }
  destruct (notified_origin fn options e a Hin)
    as (i & x & -> & Hi & Hx & Hconv & Hquiet & Hlast).
  destruct (Nat.eq_dec i (calls (retry fn options))) as [Heq|Hne].
  - destruct (run_shape fn options)
      as (last & Htrace & Hm1 & HmN & Hbefore & Hend); [cbv zeta; lia|].
    cbv zeta in *. rewrite <- Heq in Hend.
    split; [|split; [lia | now apply Hlast]].
    assert (Hends : forall l, trace (retry fn options) <> l ++ [Invoked i]).
    { intros l Hl. destruct (Hlast Heq) as [pre Hpre]. rewrite Hl in Hpre.
      apply (f_equal (@rev event)) in Hpre.
      rewrite !rev_app_distr in Hpre. cbn in Hpre. discriminate. }
    destruct Hend as [v Hv | x' thrown' Hx' Hconv' | x' e' Hx' Hconv' Hm
                     | x' e' cb' thrown' Hx' Hconv' Hm Hcb' Hthrow'].
    + congruence.
    + congruence.
    + exfalso. apply (Hends _ Htrace).
    + congruence.
  - exfalso. pose proof (Hquiet ltac:(lia) cb Hcb) as Hnone.
    rewrite (captured_eq fn i x e Hx Hconv) in Hnone. congruence.
Qed.

Lemma throwing_onRetry_ends_run_example :
  outcome (retry permanent_failure (two_attempts throwing_onRetry))
  = Throw (VString "onRetry failed")
  /\ calls (retry permanent_failure (two_attempts throwing_onRetry)) = 1%nat
  /\ exists pre,
       trace (retry permanent_failure (two_attempts throwing_onRetry))
       = pre ++ [Notified (new_Error "permanent failure") 1].
Proof.
  apply (throwing_onRetry_ends_run permanent_failure
           (two_attempts throwing_onRetry) throwing_onRetry
           (new_Error "permanent failure") 1 (VString "onRetry failed")).
  - reflexivity.
  - vm_compute. right. left. reflexivity.
  - reflexivity.
Defined.

(** C5 as stated fails: onRetry throws after attempt 1 of 2, attempt 2 is
    never made, and retry rejects with onRetry's failure. *)
Lemma throwing_callback_is_not_contained :
  ~ survives_callback_failure permanent_failure (two_attempts throwing_onRetry).
Proof.
  intros Hclaim.
  destruct (Hclaim throwing_onRetry (new_Error "permanent failure") 1
              (VString "onRetry failed")) as [Hnext _].
  - reflexivity.
  - vm_compute. right. left. reflexivity.
  - reflexivity.
  - vm_compute in Hnext. destruct Hnext as [H|[H|[]]]; discriminate.
Qed.

(** ** Normalized failures *)

Lemma to_Error_throws (x thrown : value) :
  to_Error x = Throw thrown
  <-> instanceof_Error x = false /\ js_String x = Throw thrown.
Proof.
  destruct x as [| | [] | s | e | str | t]; cbn; split;
    try discriminate; try (intros [_ H]; discriminate);
    try (intros [H _]; discriminate).
  - intros H. injection H as ->. now split.
  - intros [_ H]. injection H as ->. reflexivity.
Qed.

(** What a run can reject with. *)
Lemma rejection_origin {T : Type} (fn : nat -> Settled T)
    (options : PartialRetryOptions) (v : value) :
  1 <= maxAttempts (effective options) ->
  outcome (retry fn options) = Throw v ->
  rejects_with_last_failure fn options v
  \/ thrown_by_onRetry fn options v
  \/ thrown_by_conversion fn options v.
Proof.
  intros Hmax Hout.
  destruct (run_shape fn options Hmax)
    as (last & Htrace & Hm1 & HmN & Hbefore & Hend).
  cbv zeta in *. rewrite Hout in Hend.
  inversion Hend as [v' Hv' | x thrown Hx Hconv | x e Hx Hconv Hm
                    | x e cb thrown Hx Hconv Hm Hcb Hthrow]; subst.
  - right. right. now exists x.
  - left. exists x, e. repeat split; [exact Hx|].
    now apply to_Error_normalizes.
  - right. left. exists cb, e, (Z.of_nat (calls (retry fn options))).
    repeat split; try assumption.
    rewrite Htrace. apply in_or_app. right. right. left. reflexivity.
Qed.

(** C8 (amended): line 40 keeps an Error as it is and turns any other value
    that can be converted to a string into an Error whose message is that
    string; when the conversion throws, so does line 40.  Every onRetry
    invocation receives the failure of the attempt whose number it is given,
    normalized in this way.  Whatever retry rejects with is an Error, unless
    it is a value thrown by onRetry or by the conversion of the last failure
    to a string. *)
Theorem failures_are_normalized {T : Type} (fn : nat -> Settled T)
    (options : PartialRetryOptions) :
  (forall e a, In (Notified e a) (trace (retry fn options)) ->
     exists x, fn (Z.to_nat a) = Rejected x /\ normalizes x e)
  /\ (forall v, outcome (retry fn options) = Throw v ->
        (exists e, v = VError e)
        \/ thrown_by_onRetry fn options v
        \/ thrown_by_conversion fn options v)
  /\ (forall x e, to_Error x = Normal e <-> normalizes x e)
  /\ (forall x thrown,
        to_Error x = Throw thrown
        <-> instanceof_Error x = false /\ js_String x = Throw thrown).
Proof.
  split; [|split; [|split]].
  - intros e a Hin.
    destruct (notified_origin fn options e a Hin)
      as (i & x & -> & _ & Hx & Hconv & _).
    exists x. rewrite Nat2Z.id. split; [exact Hx|].
    now apply to_Error_normalizes.
  - intros v Hout.
    destruct (Z_le_gt_dec (maxAttempts (effective options)) 0) as [Hnone|Hsome].
    + pose proof (run_without_attempts fn options Hnone) as Hrun.
      unfold outcome in Hout. rewrite Hrun in Hout. cbn in Hout.
      injection Hout as <-. left. eauto.
    + destruct (rejection_origin fn options v)
        as [(x & e & _ & _ & ->) | [Hcb | Hconv]];
        [lia | assumption | eauto | now right; left | now right; right].
  - apply to_Error_normalizes.
  - apply to_Error_throws.
Qed.

Lemma failures_are_normalized_example :
  exists x,
    string_then_succeed (Z.to_nat 1) = Rejected x
    /\ normalizes x (new_Error "string error").
Proof.
  apply (proj1 (failures_are_normalized string_then_succeed
                  (two_attempts silent_onRetry))
           (new_Error "string error") 1).
  vm_compute. right. left. reflexivity.
Defined.

(** C8 as stated fails: when onRetry throws a string, retry rejects with
    that string, which is not an Error. *)
Lemma callback_failure_is_not_normalized :
  ~ rejects_with_Error permanent_failure (two_attempts throwing_onRetry).
Proof.
  intros Hclaim.
  destruct (Hclaim (VString "onRetry failed") eq_refl) as [e He].
  discriminate.
Qed.

(** ** The sentinel failure *)

(** C10 (amended): with maxAttempts <= 0 the operation is never invoked,
    nothing else happens, and retry rejects with the Error "No attempts
    made".  With maxAttempts >= 1 the initial value of lastError is never
    used, and what retry rejects with is the normalized failure of the last
    attempt made, or a value thrown by onRetry, or what the conversion of the
    last failure to a string threw. *)
Theorem sentinel_only_without_attempts {T : Type} (fn : nat -> Settled T)
    (options : PartialRetryOptions) :
  let opts := effective options in
  (maxAttempts opts <= 0 ->
     calls (retry fn options) = 0%nat
     /\ trace (retry fn options) = []
     /\ outcome (retry fn options)
        = Throw (VError (new_Error "No attempts made")))
  /\ (1 <= maxAttempts opts ->
      (forall e0 : Error,
         attempts_loop fn opts (attempts_upto (maxAttempts opts)) e0
         = retry fn options)
      /\ (1 <= calls (retry fn options))%nat
      /\ forall v, outcome (retry fn options) = Throw v ->
           rejects_with_last_failure fn options v
           \/ thrown_by_onRetry fn options v
           \/ thrown_by_conversion fn options v).
Proof.
  intros opts. split.
  - intros Hnone. pose proof (run_without_attempts fn options Hnone) as Hrun.
    unfold calls, trace, outcome. rewrite Hrun. now repeat split.
  - intros Hsome. split; [|split].
    + intros e0. unfold retry, retry_with, attempts_upto.
      fold (effective options). fold opts.
      replace (Z.to_nat (maxAttempts opts))
        with (S (Z.to_nat (maxAttempts opts) - 1)) by lia.
      reflexivity.
    + destruct (run_shape fn options Hsome) as (last & _ & Hm1 & _).
      exact Hm1.
    + intros v. now apply rejection_origin.
Qed.

Lemma sentinel_only_without_attempts_example :
  rejects_with_last_failure permanent_failure (two_attempts silent_onRetry)
    (VError (new_Error "permanent failure"))
  \/ thrown_by_onRetry permanent_failure (two_attempts silent_onRetry)
       (VError (new_Error "permanent failure"))
  \/ thrown_by_conversion permanent_failure (two_attempts silent_onRetry)
       (VError (new_Error "permanent failure")).
Proof.
  apply (proj2 (sentinel_only_without_attempts permanent_failure
                  (two_attempts silent_onRetry))).
  - cbn. lia.
  - reflexivity.
Defined.

(** C10 as stated fails: with maxAttempts = 2, a failure thrown by onRetry
    is propagated, and it does not come from an attempt of the operation. *)
Lemma callback_failure_is_propagated :
  1 <= maxAttempts (effective (two_attempts throwing_onRetry))
  /\ ~ rejects_with_operation_failure permanent_failure
         (two_attempts throwing_onRetry).
Proof.
  split; [cbn; lia|].
  intros Hclaim.
  destruct (Hclaim (VString "onRetry failed") eq_refl)
    as (i & x & e & _ & _ & Hv).
  discriminate.
Qed.

(** ** A single attempt *)

(** C7 (amended): with maxAttempts = 1 the operation is invoked exactly once
    and nothing else happens: no onRetry invocation and no wait.  retry
    returns the value of that call; when the call fails, retry rejects with
    its failure normalized to an Error, or, when the failure is a value whose
    conversion to a string throws, with what that conversion threw. *)
Theorem single_attempt {T : Type} (fn : nat -> Settled T)
    (options : PartialRetryOptions) :
  maxAttempts (effective options) = 1 ->
  calls (retry fn options) = 1%nat
  /\ trace (retry fn options) = [Invoked 1]
  /\ (forall v, fn 1%nat = Fulfilled v ->
        outcome (retry fn options) = Normal v)
  /\ (forall x e, fn 1%nat = Rejected x -> normalizes x e ->
        outcome (retry fn options) = Throw (VError e))
  /\ (forall x thrown, fn 1%nat = Rejected x ->
        instanceof_Error x = false -> js_String x = Throw thrown ->
        outcome (retry fn options) = Throw thrown).
Proof.
  intros Hmax.
  assert (Hrun : retry fn options 0%nat
                 = attempts_loop fn (effective options)
                     [maxAttempts (effective options)]
                     (new_Error "No attempts made") 0%nat).
  { unfold retry, retry_with, attempts_upto. fold (effective options).
    now rewrite Hmax. }
  unfold calls, trace, outcome. rewrite Hrun.
  destruct (fn 1%nat) as [v|x] eqn:Hfn.
  - rewrite (loop_fulfilled fn _ _ _ _ _ v Hfn). cbn [fst snd].
    repeat split; try discriminate. intros v' Hv'. congruence.
  - destruct (to_Error x) as [e|thrown] eqn:Hconv.
    + rewrite (loop_exhausted fn _ _ _ _ x e Hfn Hconv). cbn [fst snd].
      repeat split; try discriminate.
      * intros x' e' Hx' Hnorm. injection Hx' as <-.
        apply to_Error_normalizes in Hnorm. congruence.
      * intros x' thrown Hx' Hinst Hs. injection Hx' as <-.
        assert (to_Error x = Throw thrown) by now apply to_Error_throws.
        congruence.
    + rewrite (loop_conversion_throws fn _ _ _ _ _ x thrown Hfn Hconv).
      cbn [fst snd]. repeat split; try discriminate.
      * intros x' e' Hx' Hnorm. injection Hx' as <-.
        apply to_Error_normalizes in Hnorm. congruence.
      * intros x' thrown' Hx' Hinst Hs. injection Hx' as <-.
        assert (to_Error x = Throw thrown') by now apply to_Error_throws.
        congruence.
Qed.

Lemma single_attempt_example :
  calls (retry permanent_failure (mkPartial (Some 1) None None None
                                    (Some throwing_onRetry))) = 1%nat
  /\ trace (retry permanent_failure (mkPartial (Some 1) None None None
                                       (Some throwing_onRetry)))
     = [Invoked 1]
  /\ outcome (retry permanent_failure (mkPartial (Some 1) None None None
                                         (Some throwing_onRetry)))
     = Throw (VError (new_Error "permanent failure")).
Proof.
  destruct (single_attempt permanent_failure
              (mkPartial (Some 1) None None None (Some throwing_onRetry))
              eq_refl) as (Hcalls & Htrace & _ & Hfail & _).
  split; [exact Hcalls|]. split; [exact Htrace|].
  apply (Hfail (VError (new_Error "permanent failure"))
           (new_Error "permanent failure") eq_refl).
  left. reflexivity.
Defined.

(** C7 as stated fails: with maxAttempts = 1 and an operation that rejects
    with a value that cannot be converted to a string, retry does not
    propagate that failure: it rejects with the TypeError of the
    conversion. *)
Lemma unconvertible_failure_is_replaced :
  maxAttempts (effective one_attempt) = 1
  /\ opaque_failure 1%nat = Rejected (VUnprintable cannot_convert)
  /\ outcome (retry opaque_failure one_attempt) = Throw cannot_convert
  /\ ~ rejects_with_last_failure opaque_failure one_attempt cannot_convert.
Proof.
  repeat split.
  intros (x & e & Hx & Hnorm & _).
  change (calls (retry opaque_failure one_attempt)) with 1%nat in Hx.
  injection Hx as <-.
  destruct Hnorm as [H | (_ & s & Hs & _)]; discriminate.
Qed.

(** ** Defaults *)

(** C9: the options retry works with are formed field by field: a field
    that is supplied overrides the default and a field that is left out takes
    the default (maxAttempts 3, delayMs 1000, backoffMultiplier 2, maxDelayMs
    30000, no onRetry); retry runs with exactly these options, and a call
    without options runs with exactly the defaults: on an operation that
    always fails, three calls with waits of 1000 and 2000 between them. *)
Theorem options_override_defaults (options : PartialRetryOptions) :
  let opts := effective options in
  maxAttempts opts
  = match given_maxAttempts options with Some v => v | None => 3 end
  /\ delayMs opts
     = match given_delayMs options with Some v => v | None => 1000 end
  /\ backoffMultiplier opts
     = match given_backoffMultiplier options with Some v => v | None => 2 end
  /\ maxDelayMs opts
     = match given_maxDelayMs options with Some v => v | None => 30000 end
  /\ onRetry opts = given_onRetry options
  /\ (forall (T : Type) (fn : nat -> Settled T),
        retry fn options = retry_with fn opts)
  /\ effective no_options = mkOptions 3 1000 2 30000 None
  /\ (forall (T : Type) (fn : nat -> Settled T),
        retry fn no_options = retry_with fn (mkOptions 3 1000 2 30000 None))
  /\ retry permanent_failure no_options 0%nat
     = (Throw (VError (new_Error "permanent failure")), 3%nat,
        [Invoked 1; Slept 1000; Invoked 2; Slept 2000; Invoked 3]).
Proof.
  intros opts. unfold opts, effective, spread, override. cbn.
  repeat split. now destruct (given_onRetry options).
Qed.

(** ** Classifying failures *)

Lemma prefix_iff (p s : string) :
  String.prefix p s = true <-> exists post, s = (p ++ post)%string.
Proof.
  revert s. induction p as [|c p IH]; intros s.
  - split; [intros _; now exists s|]. intros _. now destruct s.
  - destruct s as [|d s]; cbn.
    + split; [discriminate|]. intros [post Hpost]. discriminate.
    + destruct (Ascii.ascii_dec c d) as [->|Hcd].
      * rewrite IH. split; intros [post Hpost]; exists post; congruence.
      * split; [discriminate|]. intros [post Hpost]. congruence.
Qed.

Lemma includes_unfold (s sub : string) :
  includes s sub
  = String.prefix sub s
    || match s with
       | EmptyString => false
       | String _ s' => includes s' sub
       end.
Proof. now destruct s. Qed.

(** [includes] decides [contains]. *)
Lemma includes_iff (s sub : string) :
  includes s sub = true <-> contains s sub.
Proof.
  unfold contains. split.
  - induction s as [|c s IH]; rewrite includes_unfold, orb_true_iff.
    + intros [Hp|Hp]; [|discriminate].
      apply prefix_iff in Hp. destruct Hp as [post ->].
      now exists EmptyString, post.
    + intros [Hp|Hin].
      * apply prefix_iff in Hp. destruct Hp as [post ->].
        now exists EmptyString, post.
      * destruct (IH Hin) as (pre & post & ->).
        now exists (String c pre), post.
  - intros (pre & post & ->). induction pre as [|c pre IH].
    + rewrite includes_unfold, orb_true_iff. left.
      apply prefix_iff. now exists post.
    + cbn [append]. rewrite includes_unfold, orb_true_iff. now right.
Qed.

(** C6: isRetryableError is false on every value that is not an Error; on
    an Error it is true exactly when the lowercased message contains
    "econnreset", "etimedout", "enotfound", "rate limit", "timeout" or
    "network".  In particular it is true for the messages "ECONNRESET",
    "ETIMEDOUT", "Rate limit exceeded" and "Network timeout", and false for
    "Invalid input", "Not found", null, undefined and a plain string. *)
Theorem isRetryableError_spec (error : value) :
  match error with
  | VError e =>
      let m := toLowerCase (message e) in
      isRetryableError error = true
      <-> (contains m "econnreset" \/ contains m "etimedout"
           \/ contains m "enotfound" \/ contains m "rate limit"
           \/ contains m "timeout" \/ contains m "network")
  | _ => isRetryableError error = false
  end
  /\ (instanceof_Error error = false -> isRetryableError error = false)
  /\ isRetryableError (VError (new_Error "ECONNRESET")) = true
  /\ isRetryableError (VError (new_Error "ETIMEDOUT")) = true
  /\ isRetryableError (VError (new_Error "Rate limit exceeded")) = true
  /\ isRetryableError (VError (new_Error "Network timeout")) = true
  /\ isRetryableError (VError (new_Error "Invalid input")) = false
  /\ isRetryableError (VError (new_Error "Not found")) = false
  /\ isRetryableError VNull = false
  /\ isRetryableError VUndefined = false
  /\ isRetryableError (VString "string error") = false.
Proof.
  split; [|split; [|now repeat split]].
  - destruct error as [| | b | s | e | str | thrown]; try reflexivity.
    cbv zeta. unfold isRetryableError, retryableCodes.
    cbn [instanceof_Error negb existsb].
    rewrite orb_false_r, !orb_true_iff, !includes_iff.
    change (toLowerCase "ECONNRESET") with "econnreset"%string.
    change (toLowerCase "ETIMEDOUT") with "etimedout"%string.
    change (toLowerCase "ENOTFOUND") with "enotfound"%string.
    tauto.
  - destruct error; cbn; congruence.
Qed.

(** * Further properties of [retry] *)

(** ** Runs are determined by their shape *)

(** The converse of [run_shape]: an attempt number, a completion and an
    ending that fit the operation and the options are those of the run. *)
Lemma run_determined {T : Type} (fn : nat -> Settled T)
    (options : PartialRetryOptions) (m : nat) (r : Completion T)
    (last : list event) :
  (1 <= m)%nat ->
  Z.of_nat m <= maxAttempts (effective options) ->
  (forall i, (1 <= i < m)%nat ->
     failed_at fn i /\ quiet_at fn (effective options) i) ->
  ending fn (effective options) m r last ->
  calls (retry fn options) = m
  /\ outcome (retry fn options) = r
  /\ trace (retry fn options)
     = flat_map (round fn (effective options)) (seq 1 (m - 1)) ++ last.
Proof.
  intros Hm1 HmN Hbefore Hend.
  destruct (run_shape fn options)
    as (last' & Htrace & Hm1' & HmN' & Hbefore' & Hend'); [lia|].
  set (m' := calls (retry fn options)) in *.
  set (r' := outcome (retry fn options)) in *.
  assert (Hstop : forall (k k' : nat) (q : Completion T) (l : list event),
             (k < k')%nat ->
             Z.of_nat k' <= maxAttempts (effective options) ->
             (forall i, (1 <= i < k')%nat ->
                failed_at fn i /\ quiet_at fn (effective options) i) ->
             (1 <= k)%nat ->
             ending fn (effective options) k q l -> False).
  { intros k k' q l Hlt Hk' Hbef Hk1 Hk.
    destruct (Hbef k) as [(x & Hx & Hconv) Hquiet]; [lia|].
    destruct Hk as [v Hv | y thrown Hy Hconv' | y e Hy Hconv' Hlast
                   | y e cb thrown Hy Hconv' Hmore Hcb Hthrow].
    - congruence.
    - congruence.
    - lia.
    - pose proof (Hquiet cb Hcb) as Hnone.
      rewrite (captured_eq fn k y e Hy Hconv') in Hnone. congruence. }
  destruct (Nat.lt_trichotomy m m') as [Hlt | [Heq | Hgt]].
  - exfalso. exact (Hstop m m' r last Hlt HmN' Hbefore' Hm1 Hend).
  - subst m. split; [reflexivity|].
    destruct Hend as [v Hv | y thrown Hy Hconv | y e Hy Hconv Hlast
                     | y e cb thrown Hy Hconv Hmore Hcb Hthrow];
      destruct Hend'
        as [v' Hv' | y' th' Hy' Hconv' | y' e' Hy' Hconv' Hlast'
           | y' e' cb' th' Hy' Hconv' Hmore' Hcb' Hth'];
      try congruence; try lia.
    + split; [congruence | exact Htrace].
    + split; [congruence | exact Htrace].
    + split; [congruence | exact Htrace].
    + replace y' with y in * by congruence.
      replace e' with e in * by congruence.
      replace cb' with cb in * by congruence.
      replace th' with thrown in * by congruence.
      split; [reflexivity | exact Htrace].
  - exfalso. exact (Hstop m' m r' last' Hgt HmN Hbefore Hm1' Hend').
Qed.

Lemma failed_at_convertible {T : Type} (fn : nat -> Settled T) (i : nat) :
  failed_at fn i <-> exists x, fn i = Rejected x /\ convertible x.
Proof.
  split.
  - intros (x & Hx & Hconv). exists x. split; [exact Hx|].
    exists (captured fn i). exact Hconv.
  - intros (x & Hx & e & Hconv). now apply failed_at_intro with x e.
Qed.

(** ** The budget *)

(** X1: retry never calls the operation more often than maxAttempts allows:
    not at all when maxAttempts <= 0, and between once and maxAttempts times
    otherwise, whatever the operation and onRetry do. *)
Theorem budget_is_never_exceeded {T : Type} (fn : nat -> Settled T)
    (options : PartialRetryOptions) :
  Z.of_nat (calls (retry fn options))
  <= Z.max 0 (maxAttempts (effective options))
  /\ (calls (retry fn options) = 0%nat
      <-> maxAttempts (effective options) <= 0).
Proof.
  destruct (Z_le_gt_dec (maxAttempts (effective options)) 0) as [Hnone|Hsome].
  - pose proof (run_without_attempts fn options Hnone) as Hrun.
    unfold calls. rewrite Hrun. cbn [fst snd]. split; [lia|tauto].
  - destruct (run_shape fn options) as (last & _ & Hm1 & HmN & _); [lia|].
    split; [lia|]. split; lia.
Qed.

(** ** When retry returns *)

(** A run in which the first [k - 1] calls fail with failures that line 40
    can capture, [onRetry] returns normally after each of them and the [k]-th
    call succeeds. *)
Lemma first_success_run {T : Type} (fn : nat -> Settled T)
    (options : PartialRetryOptions) (k : nat) (v : T) :
  (1 <= k)%nat ->
  Z.of_nat k <= maxAttempts (effective options) ->
  fn k = Fulfilled v ->
  (forall i, (1 <= i < k)%nat ->
     failed_at fn i /\ quiet_at fn (effective options) i) ->
  calls (retry fn options) = k
  /\ outcome (retry fn options) = Normal v
  /\ trace (retry fn options)
     = flat_map (round fn (effective options)) (seq 1 (k - 1)) ++ [Invoked k].
Proof.
  intros Hk1 HkN Hok Hbefore.
  apply run_determined; try assumption. now constructor.
Qed.

(** X2: retry returns a value v exactly when some call k within the budget
    is the first to succeed, with value v, each of the k - 1 calls before it
    failed with an Error or with a value that can be converted to a string,
    and onRetry returned normally after each of these failures. *)
Theorem retry_returns_iff {T : Type} (fn : nat -> Settled T)
    (options : PartialRetryOptions) (v : T) :
  outcome (retry fn options) = Normal v
  <-> exists k : nat,
        (1 <= k)%nat
        /\ Z.of_nat k <= maxAttempts (effective options)
        /\ fn k = Fulfilled v
        /\ (forall i, (1 <= i < k)%nat ->
              (exists x, fn i = Rejected x /\ convertible x)
              /\ quiet_at fn (effective options) i).
Proof.
  split.
  - intros Hout.
    destruct (Z_le_gt_dec (maxAttempts (effective options)) 0) as [Hnone|Hsome].
    { pose proof (run_without_attempts fn options Hnone) as Hrun.
      unfold outcome in Hout. rewrite Hrun in Hout. discriminate. }
    destruct (run_shape fn options)
      as (last & _ & Hm1 & HmN & Hbefore & Hend); [lia|].
    rewrite Hout in Hend.
    exists (calls (retry fn options)).
    inversion Hend as [v' Hv' | | |]; subst.
    repeat split; try assumption.
    + apply failed_at_convertible. now apply Hbefore.
    + now apply Hbefore.
  - intros (k & Hk1 & HkN & Hok & Hbefore).
    destruct (first_success_run fn options k v Hk1 HkN Hok)
      as (_ & Hout & _); [|exact Hout].
    intros i Hi. destruct (Hbefore i Hi) as [Hfail Hquiet].
    split; [now apply failed_at_convertible | exact Hquiet].
Qed.

(** X3: the value retry returns is the value of the last call it made, and
    every call before that one failed. *)
Theorem returned_value_is_first_success {T : Type} (fn : nat -> Settled T)
    (options : PartialRetryOptions) (v : T) :
  outcome (retry fn options) = Normal v ->
  fn (calls (retry fn options)) = Fulfilled v
  /\ (forall i, (1 <= i < calls (retry fn options))%nat ->
        exists x, fn i = Rejected x)
  /\ exists pre,
       trace (retry fn options) = pre ++ [Invoked (calls (retry fn options))].
Proof.
  intros Hout.
  destruct (Z_le_gt_dec (maxAttempts (effective options)) 0) as [Hnone|Hsome].
  { pose proof (run_without_attempts fn options Hnone) as Hrun.
    unfold outcome in Hout. rewrite Hrun in Hout. discriminate. }
  destruct (run_shape fn options)
    as (last & Htrace & Hm1 & HmN & Hbefore & Hend); [lia|].
  rewrite Hout in Hend.
  inversion Hend as [v' Hv' | | |]; subst.
  repeat split; try assumption.
  - intros i Hi. destruct (Hbefore i Hi) as [(x & Hx & _) _]. eauto.
  - eexists. exact Htrace.
Qed.

Lemma returned_value_is_first_success_example :
  fail_then_succeed (calls (retry fail_then_succeed
                              (two_attempts silent_onRetry)))
  = Fulfilled "success"%string
  /\ (forall i,
        (1 <= i < calls (retry fail_then_succeed
                          (two_attempts silent_onRetry)))%nat ->
        exists x, fail_then_succeed i = Rejected x)
  /\ exists pre,
       trace (retry fail_then_succeed (two_attempts silent_onRetry))
       = pre ++ [Invoked (calls (retry fail_then_succeed
                                   (two_attempts silent_onRetry)))].
Proof.
  apply (returned_value_is_first_success fail_then_succeed
           (two_attempts silent_onRetry) "success"%string).
  reflexivity.
Defined.

(** ** When onRetry is called *)

(** X4: onRetry is only ever called with an attempt number from 1 up to
    maxAttempts - 1: never after the final attempt of the budget, and never
    after a call that succeeded. *)
Theorem onRetry_only_before_last_attempt {T : Type} (fn : nat -> Settled T)
    (options : PartialRetryOptions) (e : Error) (a : Z) :
  In (Notified e a) (trace (retry fn options)) ->
  1 <= a < maxAttempts (effective options)
  /\ exists x, fn (Z.to_nat a) = Rejected x.
Proof.
  intros Hin.
  destruct (Z_le_gt_dec (maxAttempts (effective options)) 0) as [Hnone|Hsome].
  { pose proof (run_without_attempts fn options Hnone) as Hrun.
    unfold trace in Hin. rewrite Hrun in Hin. contradiction. }
  destruct (run_shape fn options)
    as (last & Htrace & Hm1 & HmN & Hbefore & Hend); [lia|].
  set (m := calls (retry fn options)) in *.
  rewrite Htrace in Hin. apply in_app_or in Hin. destruct Hin as [Hin|Hin].
  - apply in_rounds_notified in Hin. destruct Hin as (i & Hi & -> & ->).
    apply in_seq in Hi. rewrite Nat2Z.id.
    split; [lia|]. destruct (Hbefore i) as [(x & Hx & _) _]; [lia | eauto].
  - destruct Hend as [v Hv | x thrown Hx Hconv | x e' Hx Hconv Hlast
                     | x e' cb thrown Hx Hconv Hmore Hcb Hthrow].
    + destruct Hin as [Hin|[]]. discriminate.
    + destruct Hin as [Hin|[]]. discriminate.
    + destruct Hin as [Hin|[]]. discriminate.
    + destruct Hin as [Hin|[Hin|[]]]; [discriminate|].
      injection Hin as <- <-. rewrite Nat2Z.id. split; [lia|eauto].
Qed.

Lemma onRetry_only_before_last_attempt_example :
  1 <= 1 < maxAttempts (effective (two_attempts throwing_onRetry))
  /\ exists x, permanent_failure (Z.to_nat 1) = Rejected x.
Proof.
  apply (onRetry_only_before_last_attempt permanent_failure
           (two_attempts throwing_onRetry) (new_Error "permanent failure") 1).
  vm_compute. right. left. reflexivity.
Defined.

(** ** Waits *)

Lemma waits_app (t1 t2 : list event) :
  waits (t1 ++ t2) = waits t1 ++ waits t2.
Proof. apply flat_map_app. Qed.

Lemma waits_rounds {T : Type} (fn : nat -> Settled T) (opts : RetryOptions)
    (l : list nat) :
  waits (flat_map (round fn opts) l)
  = map (fun i => backoff opts (Z.of_nat i)) l.
Proof.
  induction l as [|i l IH]; [reflexivity|].
  cbn [flat_map map]. rewrite waits_app, IH.
  unfold round, notification. now destruct (onRetry opts).
Qed.

(** The waits of a run: one after each call but the last, computed from the
    number of that call. *)
Lemma waits_of_run {T : Type} (fn : nat -> Settled T)
    (options : PartialRetryOptions) :
  waits (trace (retry fn options))
  = map (fun i => backoff (effective options) (Z.of_nat i))
        (seq 1 (calls (retry fn options) - 1)).
Proof.
  destruct (Z_le_gt_dec (maxAttempts (effective options)) 0) as [Hnone|Hsome].
  - pose proof (run_without_attempts fn options Hnone) as Hrun.
    unfold trace, calls. now rewrite Hrun.
  - destruct (run_shape fn options) as (last & Htrace & _ & _ & _ & Hend);
      [lia|].
    rewrite Htrace, waits_app, waits_rounds.
    destruct Hend; cbn; now rewrite app_nil_r.
Qed.

Lemma In_Slept_waits (t : list event) (ms : Z) :
  In (Slept ms) t <-> In ms (waits t).
Proof.
  unfold waits. rewrite in_flat_map. split.
  - intros Hin. exists (Slept ms). split; [exact Hin | now left].
  - intros (ev & Hev & Hms). destruct ev; try contradiction.
    destruct Hms as [->|[]]. exact Hev.
Qed.

Lemma sum_bounded (cap : Z) (l : list Z) :
  (forall x, In x l -> x <= cap) ->
  fold_right Z.add 0 l <= Z.of_nat (List.length l) * cap.
Proof.
  induction l as [|x l IH]; intros Hcap; [cbn; lia|].
  cbn [fold_right List.length].
  pose proof (Hcap x (or_introl eq_refl)).
  assert (fold_right Z.add 0 l <= Z.of_nat (List.length l) * cap)
    by (apply IH; intros y Hy; apply Hcap; now right).
  lia.
Qed.

(** X5: no single wait is longer than maxDelayMs, a run has one wait less
    than it has calls (and none when it makes no call), so the time slept in
    a run is at most (calls - 1) * maxDelayMs. *)
Theorem waits_are_capped {T : Type} (fn : nat -> Settled T)
    (options : PartialRetryOptions) :
  (forall ms, In (Slept ms) (trace (retry fn options)) ->
     ms <= maxDelayMs (effective options))
  /\ List.length (waits (trace (retry fn options)))
     = (calls (retry fn options) - 1)%nat
  /\ total_wait (trace (retry fn options))
     <= Z.of_nat (calls (retry fn options) - 1)
        * maxDelayMs (effective options).
Proof.
  assert (Hcap : forall ms, In ms (waits (trace (retry fn options))) ->
                   ms <= maxDelayMs (effective options)).
  { intros ms Hin. rewrite waits_of_run in Hin. apply in_map_iff in Hin.
    destruct Hin as (i & <- & _). unfold backoff. apply Z.le_min_r. }
  assert (Hlen : List.length (waits (trace (retry fn options)))
                 = (calls (retry fn options) - 1)%nat)
    by now rewrite waits_of_run, length_map, length_seq.
  split; [|split].
  - intros ms Hin. now apply Hcap, In_Slept_waits.
  - exact Hlen.
  - unfold total_wait. rewrite <- Hlen. now apply sum_bounded.
Qed.

Lemma backoff_monotone (opts : RetryOptions) (i j : nat) :
  0 <= delayMs opts ->
  1 <= backoffMultiplier opts ->
  (1 <= i <= j)%nat ->
  backoff opts (Z.of_nat i) <= backoff opts (Z.of_nat j).
Proof.
  intros Hd Hb Hij. unfold backoff.
  apply Z.min_le_compat_r. apply Z.mul_le_mono_nonneg_l; [exact Hd|].
  apply Z.pow_le_mono_r; lia.
Qed.

(** X6: with delayMs >= 0 and backoffMultiplier >= 1 the waits of a run
    never shrink: each wait is at least as long as every earlier one, and the
    first one is min(delayMs, maxDelayMs). *)
Theorem waits_never_shrink {T : Type} (fn : nat -> Settled T)
    (options : PartialRetryOptions) :
  0 <= delayMs (effective options) ->
  1 <= backoffMultiplier (effective options) ->
  (forall (i j : nat) (d : Z),
     (i <= j < List.length (waits (trace (retry fn options))))%nat ->
     nth i (waits (trace (retry fn options))) d
     <= nth j (waits (trace (retry fn options))) d)
  /\ (forall d,
        (2 <= calls (retry fn options))%nat ->
        nth 0 (waits (trace (retry fn options))) d
        = Z.min (delayMs (effective options))
                (maxDelayMs (effective options))).
Proof.
  intros Hd Hb. rewrite waits_of_run, length_map, length_seq. split.
  - intros i j d Hij.
    rewrite (nth_indep _ d (backoff (effective options) (Z.of_nat 0)))
      by (rewrite length_map, length_seq; lia).
    rewrite (nth_indep _ d (backoff (effective options) (Z.of_nat 0)) (n := j))
      by (rewrite length_map, length_seq; lia).
    rewrite !(map_nth (fun i => backoff (effective options) (Z.of_nat i))).
    rewrite !seq_nth by lia.
    apply backoff_monotone; try assumption. lia.
  - intros d Hcalls.
    rewrite (nth_indep _ d (backoff (effective options) (Z.of_nat 0)))
      by (rewrite length_map, length_seq; lia).
    rewrite (map_nth (fun i => backoff (effective options) (Z.of_nat i))).
    rewrite seq_nth by lia. unfold backoff. cbn. now rewrite Z.mul_1_r.
Qed.

Lemma waits_never_shrink_example :
  (forall (i j : nat) (d : Z),
     (i <= j
      < List.length
          (waits (trace (retry permanent_failure backoff_sample))))%nat ->
     nth i (waits (trace (retry permanent_failure backoff_sample))) d
     <= nth j (waits (trace (retry permanent_failure backoff_sample))) d)
  /\ (forall d,
        (2 <= calls (retry permanent_failure backoff_sample))%nat ->
        nth 0 (waits (trace (retry permanent_failure backoff_sample))) d
        = Z.min (delayMs (effective backoff_sample))
                (maxDelayMs (effective backoff_sample))).
Proof.
  apply (waits_never_shrink permanent_failure backoff_sample).
  - cbn. lia.
  - cbn. lia.
Defined.

(** ** No wasted wait *)

Lemma waits_lead_to_calls_rounds {T : Type} (fn : nat -> Settled T)
    (opts : RetryOptions) (l : list nat) (i : nat) (tl : list event) :
  waits_lead_to_calls (Invoked i :: tl) ->
  waits_lead_to_calls (flat_map (round fn opts) l ++ Invoked i :: tl)
  /\ exists j rest,
       flat_map (round fn opts) l ++ Invoked i :: tl = Invoked j :: rest.
Proof.
  intros Htl. induction l as [|k l [IH (j & rest & Hhead)]].
  - split; [exact Htl | now exists i, tl].
  - cbn [flat_map]. rewrite <- app_assoc, Hhead. rewrite Hhead in IH.
    split; [|unfold round; cbn [app]; eauto].
    unfold round, notification.
    destruct (onRetry opts); cbn [app waits_lead_to_calls]; exact IH.
Qed.

Lemma waits_lead_to_calls_split (t pre post : list event) (ms : Z) :
  waits_lead_to_calls t ->
  t = pre ++ Slept ms :: post ->
  exists i post', post = Invoked i :: post'.
Proof.
  revert t. induction pre as [|ev pre IH]; intros t Ht ->.
  - cbn in Ht. destruct post as [|[i| |] post']; try contradiction. eauto.
  - apply (IH (pre ++ Slept ms :: post)); [|reflexivity].
    cbn [app waits_lead_to_calls] in Ht.
    destruct ev; try exact Ht.
    destruct (pre ++ Slept ms :: post) as [|[i| |] t']; try contradiction.
    exact Ht.
Qed.

(** X7: retry never waits in vain: every wait is directly followed by a
    call of the operation, so a run never ends with a wait, whether it
    succeeds, uses up its budget or is cut short by onRetry. *)
Theorem no_wasted_wait {T : Type} (fn : nat -> Settled T)
    (options : PartialRetryOptions) (pre post : list event) (ms : Z) :
  trace (retry fn options) = pre ++ Slept ms :: post ->
  exists i post', post = Invoked i :: post'.
Proof.
  intros Hsplit.
  apply (waits_lead_to_calls_split (trace (retry fn options)) pre post ms);
    [|exact Hsplit].
  destruct (Z_le_gt_dec (maxAttempts (effective options)) 0) as [Hnone|Hsome].
  { pose proof (run_without_attempts fn options Hnone) as Hrun.
    unfold trace. rewrite Hrun. exact I. }
  destruct (run_shape fn options) as (last & Htrace & _ & _ & _ & Hend);
    [lia|].
  rewrite Htrace.
  destruct Hend; apply waits_lead_to_calls_rounds; exact I.
Qed.

Lemma no_wasted_wait_example :
  exists i post', [Invoked 2] = Invoked i :: post'.
Proof.
  apply (no_wasted_wait permanent_failure (two_attempts silent_onRetry)
           [Invoked 1; Notified (new_Error "permanent failure") 1]
           [Invoked 2] 10).
  reflexivity.
Defined.

(** ** What does not influence a run *)

Lemma ending_same_options {T : Type} (fn : nat -> Settled T)
    (opts opts' : RetryOptions) (m : nat) (r : Completion T)
    (last : list event) :
  maxAttempts opts = maxAttempts opts' ->
  onRetry opts = onRetry opts' ->
  ending fn opts m r last -> ending fn opts' m r last.
Proof.
  intros Hmax Hcb [v Hv | x thrown Hx Hconv | x e Hx Hconv Hlast
                  | x e cb thrown Hx Hconv Hmore Hcb' Hthrow].
  - now constructor.
  - now apply ended_by_conversion with x.
  - apply ended_exhausted with x; congruence.
  - apply ended_by_callback with x cb; congruence.
Qed.

(** X8: delayMs, backoffMultiplier and maxDelayMs only decide how long retry
    waits: two runs on the same operation whose options agree on maxAttempts
    and onRetry make the same calls, notify onRetry alike and end alike. *)
Theorem timing_does_not_change_outcome {T : Type} (fn : nat -> Settled T)
    (options options' : PartialRetryOptions) :
  maxAttempts (effective options) = maxAttempts (effective options') ->
  onRetry (effective options) = onRetry (effective options') ->
  outcome (retry fn options') = outcome (retry fn options)
  /\ calls (retry fn options') = calls (retry fn options)
  /\ notifications (trace (retry fn options'))
     = notifications (trace (retry fn options)).
Proof.
  intros Hmax Hcb.
  destruct (Z_le_gt_dec (maxAttempts (effective options)) 0) as [Hnone|Hsome].
  { pose proof (run_without_attempts fn options Hnone) as Hrun.
    pose proof (run_without_attempts fn options' ltac:(lia)) as Hrun'.
    unfold outcome, calls, trace. now rewrite Hrun, Hrun'. }
  destruct (run_shape fn options)
    as (last & Htrace & Hm1 & HmN & Hbefore & Hend); [lia|].
  destruct (run_determined fn options' (calls (retry fn options))
              (outcome (retry fn options)) last)
    as (Hcalls & Hout & Htrace'); try assumption; try lia.
  - intros i Hi. destruct (Hbefore i Hi) as [Hx Hquiet]. split; [exact Hx|].
    intros cb Hcb'. apply Hquiet. congruence.
  - now apply (ending_same_options fn (effective options)).
  - repeat split; try assumption.
    rewrite Htrace, Htrace', !notifications_app. f_equal.
    generalize (seq 1 (calls (retry fn options) - 1)).
    intros l. induction l as [|i l IH]; [reflexivity|].
    cbn [flat_map]. rewrite !notifications_app, IH. f_equal.
    unfold round, notification. rewrite <- Hcb.
    now destruct (onRetry (effective options)).
Qed.

Lemma timing_does_not_change_outcome_example :
  outcome (retry permanent_failure backoff_sample)
  = outcome (retry permanent_failure (mkPartial (Some 3) None None None None))
  /\ calls (retry permanent_failure backoff_sample)
     = calls (retry permanent_failure (mkPartial (Some 3) None None None None))
  /\ notifications (trace (retry permanent_failure backoff_sample))
     = notifications
         (trace (retry permanent_failure
                   (mkPartial (Some 3) None None None None))).
Proof.
  apply (timing_does_not_change_outcome permanent_failure
           (mkPartial (Some 3) None None None None) backoff_sample).
  - reflexivity.
  - reflexivity.
Defined.

(** X9: an onRetry that never throws is a pure observer: leaving it out
    changes nothing but its own invocations; the calls, the waits and the
    result of the run stay the same. *)
Theorem quiet_onRetry_is_observer {T : Type} (fn : nat -> Settled T)
    (options : PartialRetryOptions) :
  never_throws (effective options) ->
  outcome (retry fn (without_onRetry options)) = outcome (retry fn options)
  /\ calls (retry fn (without_onRetry options)) = calls (retry fn options)
  /\ trace (retry fn (without_onRetry options))
     = filter (fun ev => negb (is_Notified ev)) (trace (retry fn options)).
Proof.
  intros Hquiet.
  assert (Hmax : maxAttempts (effective (without_onRetry options))
                 = maxAttempts (effective options)) by reflexivity.
  assert (Hcb : onRetry (effective (without_onRetry options)) = None)
    by reflexivity.
  destruct (Z_le_gt_dec (maxAttempts (effective options)) 0) as [Hnone|Hsome].
  { pose proof (run_without_attempts fn options Hnone) as Hrun.
    pose proof (run_without_attempts fn (without_onRetry options)
                  ltac:(lia)) as Hrun'.
    unfold outcome, calls, trace. now rewrite Hrun, Hrun'. }
  destruct (run_shape fn options)
    as (last & Htrace & Hm1 & HmN & Hbefore & Hend); [lia|].
  pose proof (ending_quiet _ _ _ _ _ Hquiet Hend) as ->.
  destruct (run_determined fn (without_onRetry options)
              (calls (retry fn options)) (outcome (retry fn options))
              [Invoked (calls (retry fn options))])
    as (Hcalls & Hout & Htrace'); try assumption; try lia.
  - intros i Hi. destruct (Hbefore i Hi) as [Hx _]. split; [exact Hx|].
    intros cb Hcb'. rewrite Hcb in Hcb'. discriminate.
  - destruct Hend as [v Hv | x thrown Hx Hconv | x e Hx Hconv Hlast
                     | x e cb thrown Hx Hconv Hmore Hcb' Hthrow].
    + now constructor.
    + now apply ended_by_conversion with x.
    + apply ended_exhausted with x; [exact Hx | exact Hconv |].
      now rewrite Hmax.
    + rewrite (Hquiet cb Hcb') in Hthrow. discriminate.
  - repeat split; try assumption.
    rewrite Htrace, Htrace', filter_app. f_equal.
    generalize (seq 1 (calls (retry fn options) - 1)).
    intros l. induction l as [|i l IH]; [reflexivity|].
    cbn [flat_map]. rewrite filter_app, IH. f_equal.
    unfold round, notification. rewrite Hcb.
    now destruct (onRetry (effective options)).
Qed.

Lemma quiet_onRetry_is_observer_example :
  outcome (retry fail_then_succeed
             (without_onRetry (two_attempts silent_onRetry)))
  = outcome (retry fail_then_succeed (two_attempts silent_onRetry))
  /\ calls (retry fail_then_succeed
              (without_onRetry (two_attempts silent_onRetry)))
     = calls (retry fail_then_succeed (two_attempts silent_onRetry))
  /\ trace (retry fail_then_succeed
              (without_onRetry (two_attempts silent_onRetry)))
     = filter (fun ev => negb (is_Notified ev))
              (trace (retry fail_then_succeed (two_attempts silent_onRetry))).
Proof.
  apply (quiet_onRetry_is_observer fail_then_succeed
           (two_attempts silent_onRetry)).
  intros cb Hcb e a. injection Hcb as <-. reflexivity.
Defined.

(** X10: apart from converting it on line 40, retry does not look at what
    the operation failed with, nor at what it returned: two operations whose
    failures are Errors or values that can be converted to a string, and that
    succeed and fail at the same calls, are called equally often and waited
    for equally long, as long as onRetry does not throw.  In particular
    failures that isRetryableError rejects are retried like any other. *)
Theorem failure_content_is_ignored {T U : Type} (fn : nat -> Settled T)
    (gn : nat -> Settled U) (options : PartialRetryOptions) :
  never_throws (effective options) ->
  fails_convertibly fn ->
  fails_convertibly gn ->
  (forall i, is_Fulfilled (fn i) = is_Fulfilled (gn i)) ->
  calls (retry gn options) = calls (retry fn options)
  /\ waits (trace (retry gn options)) = waits (trace (retry fn options))
  /\ invocations (trace (retry gn options))
     = invocations (trace (retry fn options)).
Proof.
  intros Hquiet Hfn Hgn Hsame.
  assert (Hcalls : calls (retry gn options) = calls (retry fn options)).
  { destruct (Z_le_gt_dec (maxAttempts (effective options)) 0)
      as [Hnone|Hsome].
    { pose proof (run_without_attempts fn options Hnone) as Hrun.
      pose proof (run_without_attempts gn options Hnone) as Hrun'.
      unfold calls. now rewrite Hrun, Hrun'. }
    destruct (run_shape fn options)
      as (last & Htrace & Hm1 & HmN & Hbefore & Hend); [lia|].
    set (m := calls (retry fn options)) in *.
    assert (Hrejected : forall i x, fn i = Rejected x ->
                          exists y e, gn i = Rejected y
                                      /\ to_Error y = Normal e).
    { intros i x Hx. specialize (Hsame i). rewrite Hx in Hsame.
      destruct (gn i) as [w|y] eqn:Hy; [discriminate|].
      destruct (Hgn i y Hy) as [e He]. eauto. }
    assert (Hend' : exists r' last', ending gn (effective options) m r' last').
    { destruct Hend as [v Hv | x thrown Hx Hconv | x e Hx Hconv Hlast
                       | x e cb thrown Hx Hconv Hmore Hcb Hthrow].
      - specialize (Hsame m). rewrite Hv in Hsame.
        destruct (gn m) as [w|y] eqn:Hy; [|discriminate].
        exists (Normal w), [Invoked m]. now constructor.
      - destruct (Hfn m x Hx) as [e He]. congruence.
      - destruct (Hrejected m x Hx) as (y & e' & Hy & He').
        exists (Throw (VError e')), [Invoked m].
        now apply ended_exhausted with y.
      - rewrite (Hquiet cb Hcb) in Hthrow. discriminate. }
    destruct Hend' as (r' & last' & Hend').
    destruct (run_determined gn options m r' last') as (Hcalls & _);
      try assumption.
    intros i Hi. destruct (Hbefore i Hi) as [(x & Hx & _) _].
    destruct (Hrejected i x Hx) as (y & e' & Hy & He').
    split; [now apply failed_at_intro with y e'|].
    intros cb Hcb. now apply Hquiet. }
  split; [exact Hcalls|]. split.
  - now rewrite !waits_of_run, Hcalls.
  - now rewrite !invocations_of_run, Hcalls.
Qed.

Lemma failure_content_is_ignored_example :
  calls (retry invalid_input (two_attempts silent_onRetry))
  = calls (retry permanent_failure (two_attempts silent_onRetry))
  /\ waits (trace (retry invalid_input (two_attempts silent_onRetry)))
     = waits (trace (retry permanent_failure (two_attempts silent_onRetry)))
  /\ invocations (trace (retry invalid_input (two_attempts silent_onRetry)))
     = invocations
         (trace (retry permanent_failure (two_attempts silent_onRetry))).
Proof.
  apply (failure_content_is_ignored permanent_failure invalid_input
           (two_attempts silent_onRetry)).
  - intros cb Hcb e a. injection Hcb as <-. reflexivity.
  - intros i x Hx. injection Hx as <-. eexists. reflexivity.
  - intros i x Hx. injection Hx as <-. eexists. reflexivity.
  - intros i. reflexivity.
Defined.

(** X11: a larger budget never loses a success: if retry returns v, then
    with any larger maxAttempts and the same onRetry it makes the same number
    of calls and returns v as well. *)
Theorem larger_budget_keeps_success {T : Type} (fn : nat -> Settled T)
    (options options' : PartialRetryOptions) (v : T) :
  maxAttempts (effective options) <= maxAttempts (effective options') ->
  onRetry (effective options) = onRetry (effective options') ->
  outcome (retry fn options) = Normal v ->
  outcome (retry fn options') = Normal v
  /\ calls (retry fn options') = calls (retry fn options).
Proof.
  intros Hmax Hcb Hout.
  destruct (Z_le_gt_dec (maxAttempts (effective options)) 0) as [Hnone|Hsome].
  { pose proof (run_without_attempts fn options Hnone) as Hrun.
    unfold outcome in Hout. rewrite Hrun in Hout. discriminate. }
  destruct (run_shape fn options)
    as (last & Htrace & Hm1 & HmN & Hbefore & Hend); [lia|].
  rewrite Hout in Hend. inversion Hend as [v' Hv' | | |]; subst.
  destruct (first_success_run fn options' (calls (retry fn options)) v)
    as (Hcalls & Hout' & _); try assumption; try lia.
  - intros i Hi. destruct (Hbefore i Hi) as [Hfail Hquiet].
    split; [exact Hfail|].
    intros cb Hcb'. apply Hquiet. congruence.
  - now split.
Qed.

Lemma larger_budget_keeps_success_example :
  outcome (retry fail_then_succeed
             (mkPartial (Some 5) (Some 10) None None (Some silent_onRetry)))
  = Normal "success"%string
  /\ calls (retry fail_then_succeed
              (mkPartial (Some 5) (Some 10) None None (Some silent_onRetry)))
     = calls (retry fail_then_succeed (two_attempts silent_onRetry)).
Proof.
  apply (larger_budget_keeps_success fail_then_succeed
           (two_attempts silent_onRetry)
           (mkPartial (Some 5) (Some 10) None None (Some silent_onRetry))
           "success"%string).
  - cbn. lia.
  - reflexivity.
  - reflexivity.
Defined.

(** X12: called without options, retry makes at most three calls and sleeps
    at most 3000 ms in all (1000 ms, then 2000 ms), whatever the operation
    does. *)
Theorem default_run_is_bounded {T : Type} (fn : nat -> Settled T) :
  (1 <= calls (retry fn no_options) <= 3)%nat
  /\ total_wait (trace (retry fn no_options)) <= 3000
  /\ exists n : nat,
       (n <= 2)%nat
       /\ waits (trace (retry fn no_options)) = firstn n [1000; 2000].
Proof.
  destruct (run_shape fn no_options) as (last & _ & Hm1 & HmN & _);
    [cbn; lia|].
  change (maxAttempts (effective no_options)) with 3 in HmN.
  assert (Hwaits : waits (trace (retry fn no_options))
                   = firstn (calls (retry fn no_options) - 1) [1000; 2000]).
  { rewrite waits_of_run.
    assert (Hcases : calls (retry fn no_options) = 1%nat
                     \/ calls (retry fn no_options) = 2%nat
                     \/ calls (retry fn no_options) = 3%nat) by lia.
    destruct Hcases as [-> | [-> | ->]]; reflexivity. }
  split; [lia|]. split.
  - unfold total_wait. rewrite Hwaits.
    assert (Hcases : calls (retry fn no_options) = 1%nat
                     \/ calls (retry fn no_options) = 2%nat
                     \/ calls (retry fn no_options) = 3%nat) by lia.
    destruct Hcases as [-> | [-> | ->]]; cbn; lia.
  - exists (calls (retry fn no_options) - 1)%nat. split; [lia | exact Hwaits].
Qed.

(** ** When retry rejects *)

(** X13: with maxAttempts >= 1 retry rejects in exactly three ways.  The
    calls 1..k all fail, with k within the budget; the failures of the first
    k - 1 calls are Errors or can be converted to a string, and onRetry
    returns normally after each of them.  Then either the failure of call k
    is a value whose conversion to a string throws, and retry rejects with
    what the conversion threw; or k is maxAttempts and retry rejects with the
    normalized failure of call k; or k is below maxAttempts, onRetry throws
    when told about call k, and retry rejects with what onRetry threw. *)
Theorem retry_rejects_iff {T : Type} (fn : nat -> Settled T)
    (options : PartialRetryOptions) (w : value) :
  1 <= maxAttempts (effective options) ->
  outcome (retry fn options) = Throw w
  <-> exists (k : nat) (x : value),
        (1 <= k)%nat
        /\ Z.of_nat k <= maxAttempts (effective options)
        /\ (forall i, (1 <= i < k)%nat ->
              (exists y, fn i = Rejected y /\ convertible y)
              /\ quiet_at fn (effective options) i)
        /\ fn k = Rejected x
        /\ ((instanceof_Error x = false /\ js_String x = Throw w)
            \/ (Z.of_nat k = maxAttempts (effective options)
                /\ exists e, normalizes x e /\ w = VError e)
            \/ (Z.of_nat k < maxAttempts (effective options)
                /\ exists e cb,
                     normalizes x e
                     /\ onRetry (effective options) = Some cb
                     /\ cb e (Z.of_nat k) = Some w)).
Proof.
  intros Hmax. split.
  - intros Hout.
    destruct (run_shape fn options Hmax)
      as (last & _ & Hm1 & HmN & Hbefore & Hend).
    rewrite Hout in Hend.
    assert (Hbefore' : forall i, (1 <= i < calls (retry fn options))%nat ->
              (exists y, fn i = Rejected y /\ convertible y)
              /\ quiet_at fn (effective options) i).
    { intros i Hi. destruct (Hbefore i Hi) as [Hfail Hquiet].
      split; [now apply failed_at_convertible | exact Hquiet]. }
    exists (calls (retry fn options)).
    inversion Hend as [| x thrown Hx Hconv | x e Hx Hconv Hlast
                      | x e cb thrown Hx Hconv Hmore Hcb Hthrow]; subst;
      exists x; repeat split; try assumption; try (now apply Hbefore').
    + left. now apply to_Error_throws.
    + right. left. split; [exact Hlast|]. exists e.
      split; [now apply to_Error_normalizes | reflexivity].
    + right. right. split; [lia|]. exists e, cb.
      repeat split; try assumption. now apply to_Error_normalizes.
  - intros (k & x & Hk1 & HkN & Hbefore & Hx & Hway).
    assert (Hbefore' : forall i, (1 <= i < k)%nat ->
              failed_at fn i /\ quiet_at fn (effective options) i).
    { intros i Hi. destruct (Hbefore i Hi) as [Hfail Hquiet].
      split; [now apply failed_at_convertible | exact Hquiet]. }
    destruct Hway as [Hthrows | [(Hlast & e & Hnorm & ->)
                                | (Hmore & e & cb & Hnorm & Hcb & Hthrow)]].
    + apply to_Error_throws in Hthrows.
      destruct (run_determined fn options k (Throw w) [Invoked k])
        as (_ & Hout & _); try assumption.
      now apply ended_by_conversion with x.
    + apply to_Error_normalizes in Hnorm.
      destruct (run_determined fn options k (Throw (VError e)) [Invoked k])
        as (_ & Hout & _); try assumption.
      now apply ended_exhausted with x.
    + apply to_Error_normalizes in Hnorm.
      destruct (run_determined fn options k (Throw w)
                  [Invoked k; Notified e (Z.of_nat k)])
        as (_ & Hout & _); try assumption.
      apply ended_by_callback with x cb; try assumption. lia.
Qed.

Lemma retry_rejects_iff_example :
  outcome (retry opaque_failure backoff_sample) = Throw cannot_convert
  <-> exists (k : nat) (x : value),
        (1 <= k)%nat
        /\ Z.of_nat k <= maxAttempts (effective backoff_sample)
        /\ (forall i, (1 <= i < k)%nat ->
              (exists y, opaque_failure i = Rejected y /\ convertible y)
              /\ quiet_at opaque_failure (effective backoff_sample) i)
        /\ opaque_failure k = Rejected x
        /\ ((instanceof_Error x = false /\ js_String x = Throw cannot_convert)
            \/ (Z.of_nat k = maxAttempts (effective backoff_sample)
                /\ exists e, normalizes x e /\ cannot_convert = VError e)
            \/ (Z.of_nat k < maxAttempts (effective backoff_sample)
                /\ exists e cb,
                     normalizes x e
                     /\ onRetry (effective backoff_sample) = Some cb
                     /\ cb e (Z.of_nat k) = Some cannot_convert)).
Proof.
  apply (retry_rejects_iff opaque_failure backoff_sample cannot_convert).
  cbn. lia.
Defined.

(** * Further properties of [isRetryableError] *)

Lemma lower_ascii_idempotent (c : ascii) :
  lower_ascii (lower_ascii c) = lower_ascii c.
Proof.
  destruct c as [[] [] [] [] [] [] [] []]; reflexivity.
Qed.

Lemma lower_upper_ascii (c : ascii) :
  lower_ascii (upper_ascii c) = lower_ascii c.
Proof.
  destruct c as [[] [] [] [] [] [] [] []]; reflexivity.
Qed.

Lemma toLowerCase_idempotent (s : string) :
  toLowerCase (toLowerCase s) = toLowerCase s.
Proof.
  induction s as [|c s IH]; [reflexivity|].
  cbn [toLowerCase]. now rewrite lower_ascii_idempotent, IH.
Qed.

Lemma toLowerCase_toUpperCase (s : string) :
  toLowerCase (toUpperCase s) = toLowerCase s.
Proof.
  induction s as [|c s IH]; [reflexivity|].
  cbn [toLowerCase toUpperCase]. now rewrite lower_upper_ascii, IH.
Qed.

Lemma toLowerCase_append (s1 s2 : string) :
  toLowerCase (s1 ++ s2) = (toLowerCase s1 ++ toLowerCase s2)%string.
Proof.
  induction s1 as [|c s1 IH]; [reflexivity|].
  cbn [append toLowerCase]. now rewrite IH.
Qed.

Lemma string_append_assoc (s1 s2 s3 : string) :
  ((s1 ++ s2) ++ s3 = s1 ++ (s2 ++ s3))%string.
Proof.
  induction s1 as [|c s1 IH]; [reflexivity|].
  cbn [append]. now rewrite IH.
Qed.

Lemma contains_inside (s sub pre post : string) :
  contains s sub -> contains (pre ++ s ++ post) sub.
Proof.
  intros (p & q & ->). exists (pre ++ p)%string, (q ++ post)%string.
  now rewrite !string_append_assoc.
Qed.

(** [isRetryableError] on an [Error] is a search for one of six tokens. *)
Lemma isRetryableError_tokens (e : Error) :
  isRetryableError (VError e)
  = existsb (includes (toLowerCase (message e))) retryable_tokens.
Proof.
  unfold isRetryableError, retryableCodes, retryable_tokens.
  cbn [instanceof_Error negb existsb].
  change (toLowerCase "ECONNRESET") with "econnreset"%string.
  change (toLowerCase "ETIMEDOUT") with "etimedout"%string.
  change (toLowerCase "ENOTFOUND") with "enotfound"%string.
  now rewrite !orb_false_r, !orb_assoc.
Qed.

(** X14: the classification does not depend on letter case or on the kind
    of Error: putting the message in upper case or in lower case, or changing
    the name of the Error, leaves the answer unchanged. *)
Theorem isRetryableError_ignores_case (e : Error) (n1 n2 : string) :
  isRetryableError (VError (mkError n1 (toUpperCase (message e))))
  = isRetryableError (VError e)
  /\ isRetryableError (VError (mkError n2 (toLowerCase (message e))))
     = isRetryableError (VError e).
Proof.
  rewrite !isRetryableError_tokens. cbn [message].
  now rewrite toLowerCase_toUpperCase, toLowerCase_idempotent.
Qed.

(** X15: a retryable failure stays retryable when its message is embedded in
    a longer one: if an Error is retryable, so is every Error whose message
    contains that message. *)
Theorem isRetryableError_survives_wrapping (e e' : Error) :
  isRetryableError (VError e) = true ->
  contains (message e') (message e) ->
  isRetryableError (VError e') = true.
Proof.
  rewrite !isRetryableError_tokens, !existsb_exists.
  intros (tok & Htok & Hin) (pre & post & Hmsg).
  exists tok. split; [exact Htok|].
  apply includes_iff. apply includes_iff in Hin.
  rewrite Hmsg, !toLowerCase_append. now apply contains_inside.
Qed.

Lemma isRetryableError_survives_wrapping_example :
  isRetryableError
    (VError (mkError "FetchError" "request failed: ETIMEDOUT (attempt 2)"))
  = true.
Proof.
  apply (isRetryableError_survives_wrapping (new_Error "ETIMEDOUT")
           (mkError "FetchError" "request failed: ETIMEDOUT (attempt 2)")).
  - reflexivity.
  - exists "request failed: "%string, " (attempt 2)"%string. reflexivity.
Defined.
